(** * realtime-proxy: the per-session relay engine of [main.go]

    A shallow embedding of the Go program [main.go] (package [main]) and the
    properties of its specification.

    The program upgrades one client websocket, dials the upstream realtime
    service, and then runs, for that session,
    - the handler goroutine, which reads client frames and turns them into
      upstream events ([handleClientWS], the final [for] loop);
    - the receiver goroutine, which reads upstream events and relays audio
      and errors to the client ([handleClientWS], the [go func()] block);
    - the writer goroutine of [WSWriter] ([WSWriter.loop]), the only writer of
      the upstream socket, fed by [SendControl] and [SendAudio].

    Library code the program calls is embedded as follows: [encoding/base64]
    is written out (module [Base64]); [encoding/json] is taken as a parameter
    of the handlers; a Go channel is a list (its buffer) together with the
    goroutine parked on it; Go's [select] may take any ready case. *)

From Stdlib Require Import String Ascii Strings.Byte List Bool NArith ZArith Lia.
Import ListNotations.

Open Scope list_scope.

(** Go's [[]byte] and [string]. *)
Definition bytes := list byte.

(** [string(data)] and [[]byte(s)]. *)
Definition string_of_bytes (data : bytes) : string := string_of_list_byte data.
Definition bytes_of_string (s : string) : bytes := list_byte_of_string s.

(** The byte holding the low 8 bits of [n] (Go's [byte(n)] conversion). *)
Definition byte_of_N (n : N) : byte :=
  match Byte.of_N (N.land n 255) with
  | Some b => b
  | None => x00
  end.

(** ** [encoding/base64], [StdEncoding] *)

Module Base64.

(** [encodeStd], the 64 characters of the standard alphabet. *)
Definition encodeStd : string :=
  "ABCDEFGHIJKLMNOPQRSTUVWXYZabcdefghijklmnopqrstuvwxyz0123456789+/".

(** [StdPadding]. *)
Definition padChar : ascii := "="%char.

(** [enc.encode[i]]. *)
Definition encodeChar (i : N) : ascii :=
  match String.get (N.to_nat i) encodeStd with
  | Some c => c
  | None => "A"%char
  end.

(** [enc.decodeMap[c]]: the index of [c] in the alphabet; [None] stands for
    the entry [0xff] of the table. *)
Definition decodeMap (c : ascii) : option N :=
  let n := N_of_ascii c in
  if ((65 <=? n) && (n <=? 90))%N then Some (n - 65)%N
  else if ((97 <=? n) && (n <=? 122))%N then Some (n - 97 + 26)%N
  else if ((48 <=? n) && (n <=? 57))%N then Some (n - 48 + 52)%N
  else if (n =? 43)%N then Some 62%N
  else if (n =? 47)%N then Some 63%N
  else None.

(** One full group of [Encode]: three source bytes give four characters. *)
Definition encode3 (b0 b1 b2 : byte) : list ascii :=
  let val := N.lor (N.shiftl (Byte.to_N b0) 16)
            (N.lor (N.shiftl (Byte.to_N b1) 8) (Byte.to_N b2)) in
  [ encodeChar (N.land (N.shiftr val 18) 63);
    encodeChar (N.land (N.shiftr val 12) 63);
    encodeChar (N.land (N.shiftr val 6) 63);
    encodeChar (N.land val 63) ].

(** The tail of [Encode] when two bytes remain. *)
Definition encode2 (b0 b1 : byte) : list ascii :=
  let val := N.lor (N.shiftl (Byte.to_N b0) 16) (N.shiftl (Byte.to_N b1) 8) in
  [ encodeChar (N.land (N.shiftr val 18) 63);
    encodeChar (N.land (N.shiftr val 12) 63);
    encodeChar (N.land (N.shiftr val 6) 63);
    padChar ].

(** The tail of [Encode] when one byte remains. *)
Definition encode1 (b0 : byte) : list ascii :=
  let val := N.shiftl (Byte.to_N b0) 16 in
  [ encodeChar (N.land (N.shiftr val 18) 63);
    encodeChar (N.land (N.shiftr val 12) 63);
    padChar; padChar ].

(** [Encode]: full groups of three bytes, then the padded remainder. *)
Fixpoint Encode (src : bytes) : list ascii :=
  match src with
  | [] => []
  | [b0] => encode1 b0
  | [b0; b1] => encode2 b0 b1
  | b0 :: b1 :: b2 :: rest => encode3 b0 b1 b2 ++ Encode rest
  end.

Definition EncodeToString (src : bytes) : string :=
  string_of_list_ascii (Encode src).

(** The newline characters [decodeQuantum] skips. *)
Definition isNewline (c : ascii) : bool :=
  (N_of_ascii c =? 10)%N || (N_of_ascii c =? 13)%N.

Fixpoint skipNewlines (src : list ascii) : list ascii :=
  match src with
  | c :: rest => if isNewline c then skipNewlines rest else src
  | [] => []
  end.

(** The last step of [decodeQuantum]: the collected 6-bit values [dbuf]
    (missing ones are 0) give [dlen - 1] bytes. The encoding is not strict,
    so the unused low bits are not checked. *)
Definition quantumBytes (dbuf : list N) : bytes :=
  let d := fun i => nth i dbuf 0%N in
  let val := N.lor (N.shiftl (d 0%nat) 18)
            (N.lor (N.shiftl (d 1%nat) 12)
            (N.lor (N.shiftl (d 2%nat) 6) (d 3%nat))) in
  firstn (length dbuf - 1)
    [ byte_of_N (N.shiftr val 16); byte_of_N (N.shiftr val 8); byte_of_N val ].

(** [Decode]: the loop over [decodeQuantum]. [dbuf] holds the values of the
    quantum being read (its length is the index [j] of the source). An error
    of [decodeQuantum] is [None]: the callers drop the partial output. *)
Fixpoint decodeFrom (src : list ascii) (dbuf : list N) : option bytes :=
  match src with
  | [] =>
      match dbuf with
      | [] => Some []
      | _ => None (* the source ends inside a quantum and padding is on *)
      end
  | c :: rest =>
      match decodeMap c with
      | Some out =>
          if (length dbuf =? 3)%nat
          then option_map (app (quantumBytes (dbuf ++ [out]))) (decodeFrom rest [])
          else decodeFrom rest (dbuf ++ [out])
      | None =>
          if isNewline c then decodeFrom rest dbuf
          else if negb (Ascii.eqb c padChar) then None
          else
            match length dbuf with
            | 2%nat =>
                match skipNewlines rest with
                | c' :: rest' =>
                    if Ascii.eqb c' padChar
                    then match skipNewlines rest' with
                         | [] => Some (quantumBytes dbuf)
                         | _ => None (* trailing garbage *)
                         end
                    else None (* incorrect padding *)
                | [] => None (* not enough padding *)
                end
            | 3%nat =>
                match skipNewlines rest with
                | [] => Some (quantumBytes dbuf)
                | _ => None (* trailing garbage *)
                end
            | _ => None (* incorrect padding *)
            end
      end
  end.

Definition DecodeString (s : string) : option bytes :=
  decodeFrom (list_ascii_of_string s) [].

End Base64.

(** ** JSON values and events

    [openAIEvent] is [map[string]any]. A value of type [any] that goes through
    [encoding/json] is one of the shapes below; a number is kept as its
    decimal literal. A map is a list of bindings with distinct keys. *)

#[warnings="-register-all"]
Inductive jvalue : Type :=
| JNull
| JBool (b : bool)
| JNumber (literal : string)
| JString (s : string)
| JArray (items : list jvalue)
| JObject (fields : list (string * jvalue)).

Definition openAIEvent := list (string * jvalue).

(** [evt[key]]: the value bound to [key], [None] for Go's [nil]. *)
Fixpoint lookup (key : string) (evt : openAIEvent) : option jvalue :=
  match evt with
  | [] => None
  | (k, v) :: rest => if String.eqb k key then Some v else lookup key rest
  end.

(** [s, _ := evt[key].(string)]: the zero value when the assertion fails. *)
Definition stringField (evt : openAIEvent) (key : string) : string :=
  match lookup key evt with
  | Some (JString s) => s
  | _ => EmptyString
  end.

(** The three functions of [encoding/json] the program calls. [json.Marshal]
    and [json.MarshalIndent] return the bytes the program uses (it drops
    their error); [json.Unmarshal] into an [openAIEvent] fails with [None]. *)
Class Json : Type := {
  json_Marshal : jvalue -> bytes;
  json_MarshalIndent : openAIEvent -> bytes;
  json_Unmarshal : bytes -> option openAIEvent
}.

(** ** Websocket message types ([gorilla/websocket]) *)

Definition TextMessage : Z := 1.
Definition BinaryMessage : Z := 2.
Definition CloseMessage : Z := 8.
Definition PingMessage : Z := 9.
Definition PongMessage : Z := 10.

(** Constants of [main.go]. *)
Definition rateHz : string := "24000".
Definition audioCap : nat := 4. (* make(chan []byte, 4) *)

(** The lines the program logs, one constructor per [log] call. *)
Inductive logLine : Type :=
| LogOpenAIReadError
| LogOpenAIJSONError
| LogOpenAIErrorEvent (pretty : bytes)
| LogDecodeDeltaError
| LogSendingPCM (n : nat)
| LogResponseDone
| LogOpenAIEvent (t : string)
| LogClientDisconnected
| LogClientReadError
| LogCmdClear
| LogCmdCancel
| LogCmdForce
| LogClientText (cmd : string).

(** What a loop iteration does next: [continue] (or fall out of the [switch])
    or [return]. *)
Inductive flow : Type := Continue | Return.

(** ** The session as the receiver goroutine sees it *)

(** The connection request [r]; only its query parameters are kept. *)
Record Request : Type := { query : list (string * string) }.

(** [clientConn] is the list of messages handed to [clientConn.WriteMessage],
    oldest first; [ctxDone] tells whether [cancel()] was called. The result of
    a write to the client only decides a log line and is left out. *)
Record Session : Type := {
  request : Request;
  clientConn : list (Z * bytes);
  ctxDone : bool
}.

Definition writeClient (s : Session) (msgType : Z) (data : bytes) : Session :=
  {| request := request s;
     clientConn := clientConn s ++ [(msgType, data)];
     ctxDone := ctxDone s |}.

Definition cancel (s : Session) : Session :=
  {| request := request s; clientConn := clientConn s; ctxDone := true |}.

(** The session right after the upgrade of request [r]. *)
Definition newSession (r : Request) : Session :=
  {| request := r; clientConn := []; ctxDone := false |}.

(** [openaiConn.ReadMessage()]: a message, or an error. *)
Inductive upstreamRead : Type :=
| UpMessage (msg : bytes)
| UpError.

Section Handlers.
Context {J : Json}.

(** One iteration of the receiver goroutine of [handleClientWS]
    (main.go, lines 124-174). *)
Definition receiverStep (s : Session) (r : upstreamRead)
  : flow * Session * list logLine :=
  match r with
  | UpError => (Return, cancel s, [LogOpenAIReadError])
  | UpMessage msg =>
      match json_Unmarshal msg with
      | None => (Continue, s, [LogOpenAIJSONError])
      | Some evt =>
          let t := stringField evt "type" in
          if String.eqb t "error" then
            let pretty := json_MarshalIndent evt in
            (Continue, writeClient s TextMessage pretty,
             [LogOpenAIErrorEvent pretty])
          else if String.eqb t "response.output_audio.delta" then
            let delta := stringField evt "delta" in
            match Base64.DecodeString delta with
            | None => (Continue, s, [LogDecodeDeltaError])
            | Some pcm =>
                (Continue, writeClient s BinaryMessage pcm,
                 [LogSendingPCM (length pcm)])
            end
          else if String.eqb t "response.done" then
            (Continue, s, [LogResponseDone])
          else (Continue, s, [LogOpenAIEvent t])
      end
  end.

(** A malformed upstream unit: a message [json.Unmarshal] rejects, or an
    audio delta whose payload [DecodeString] rejects. *)
Definition malformed (msg : bytes) : Prop :=
  json_Unmarshal msg = None
  \/ exists evt, json_Unmarshal msg = Some evt
                 /\ stringField evt "type" = "response.output_audio.delta"%string
                 /\ Base64.DecodeString (stringField evt "delta") = None.

(** The receiver goroutine over the reads [rs]: it stops at the first
    [return]. *)
Fixpoint receiverLoop (s : Session) (rs : list upstreamRead)
  : Session * list logLine :=
  match rs with
  | [] => (s, [])
  | r :: rest =>
      match receiverStep s r with
      | (Return, s', out) => (s', out)
      | (Continue, s', out) =>
          let (s'', out') := receiverLoop s' rest in (s'', out ++ out')
      end
  end.

(** The PCM an upstream message carries: the decoded [delta] of an event of
    type [response.output_audio.delta]. *)
Definition audioPayload (msg : bytes) : option bytes :=
  match json_Unmarshal msg with
  | Some evt =>
      if String.eqb (stringField evt "type") "response.output_audio.delta"
      then Base64.DecodeString (stringField evt "delta")
      else None
  | None => None
  end.

(** The payloads of the audio deltas among the reads [rs], in order of
    arrival, up to the first read error. *)
Fixpoint deltaPayloads (rs : list upstreamRead) : list bytes :=
  match rs with
  | [] => []
  | UpError :: _ => []
  | UpMessage msg :: rest =>
      match audioPayload msg with
      | Some pcm => pcm :: deltaPayloads rest
      | None => deltaPayloads rest
      end
  end.

End Handlers.

(** The binary messages among the messages written to a socket. *)
Definition binaryMessages (ws : list (Z * bytes)) : list bytes :=
  map snd (filter (fun m => (fst m =? BinaryMessage)%Z) ws).

(** ** The handler goroutine: client frames to upstream events *)

(** [clientConn.ReadMessage()]: a message with its type, or an error
    ([closed] tells whether it is one of the three close errors). *)
Inductive clientRead : Type :=
| ClientMessage (msgType : Z) (data : bytes)
| ClientError (closed : bool).

(** A call on [openaiWriter]. *)
Inductive writerCall : Type :=
| SendControl (v : jvalue)
| SendAudio (v : jvalue).

Local Open Scope string_scope.

(** The event of line 93, sent before the two loops start. *)
Definition sessionUpdate : jvalue :=
  JObject
    [ ("type", JString "session.update");
      ("session", JObject
        [ ("type", JString "realtime");
          ("instructions", JString "請用中文與使用者自然對話，回覆以語音為主。");
          ("output_modalities", JArray [JString "audio"]);
          ("audio", JObject
            [ ("input", JObject
                [ ("format", JObject [("type", JString "audio/pcm");
                                      ("rate", JNumber rateHz)]);
                  ("turn_detection", JObject
                    [ ("type", JString "server_vad");
                      ("threshold", JNumber "0.5");
                      ("prefix_padding_ms", JNumber "300");
                      ("silence_duration_ms", JNumber "600");
                      ("create_response", JBool true) ]) ]);
              ("output", JObject
                [ ("format", JObject [("type", JString "audio/pcm");
                                      ("rate", JNumber rateHz)]);
                  ("voice", JString "marin");
                  ("speed", JNumber "1") ]) ]) ]) ].

Definition appendEvent (data : bytes) : openAIEvent :=
  [ ("type", JString "input_audio_buffer.append");
    ("audio", JString (Base64.EncodeToString data)) ].

Definition clearEvent : openAIEvent :=
  [ ("type", JString "input_audio_buffer.clear") ].

Definition cancelEvent : openAIEvent :=
  [ ("type", JString "response.cancel") ].

Definition forceEvent : openAIEvent :=
  [ ("type", JString "response.create");
    ("response", JObject [("output_modalities", JArray [JString "audio"])]) ].

Local Close Scope string_scope.

(** One iteration of the final loop of [handleClientWS] (lines 178-226):
    what it logs, the calls it makes on [openaiWriter], and whether it called
    [cancel()]. *)
Definition clientStep (r : clientRead)
  : flow * list logLine * list writerCall * bool :=
  match r with
  | ClientError closed =>
      (Return, [if closed then LogClientDisconnected else LogClientReadError],
       [], true)
  | ClientMessage msgType data =>
      if (msgType =? BinaryMessage)%Z then
        (Continue, [], [SendAudio (JObject (appendEvent data))], false)
      else if (msgType =? TextMessage)%Z then
        let cmd := string_of_bytes data in
        if String.eqb cmd "clear" then
          (Continue, [LogCmdClear], [SendControl (JObject clearEvent)], false)
        else if String.eqb cmd "cancel" then
          (Continue, [LogCmdCancel], [SendControl (JObject cancelEvent)], false)
        else if String.eqb cmd "force" then
          (Continue, [LogCmdForce], [SendControl (JObject forceEvent)], false)
        else (Continue, [LogClientText cmd], [], false)
      else (Continue, [], [], false)
  end.

(** The calls the handler goroutine makes on [openaiWriter] over the reads
    [rs], in order, after the [session.update] of line 93. *)
Fixpoint clientCalls (rs : list clientRead) : list writerCall :=
  match rs with
  | [] => []
  | r :: rest =>
      match clientStep r with
      | (Return, _, calls, _) => calls
      | (Continue, _, calls, _) => calls ++ clientCalls rest
      end
  end.

Definition handlerCalls (rs : list clientRead) : list writerCall :=
  SendControl sessionUpdate :: clientCalls rs.

(** ** [WSWriter]: the single writer of the upstream socket

    [controlCh] is unbuffered: a [SendControl] completes only in the step in
    which the loop receives from it, so the channel is the caller parked at
    the head of [pending]. [audioCh] is the buffer of the channel, oldest
    first. [conn] lists the calls of [w.conn.WriteMessage], oldest first. *)

(** The [case] of the [select] of [WSWriter.loop]. *)
Inductive selectCase : Type := CaseDone | CaseControl | CaseAudio | CaseTicker.

(** A call of [w.conn.WriteMessage]: the case that made it, its two arguments,
    and whether it returned [nil]. *)
Record wsWrite : Type := {
  from : selectCase;
  msgType : Z;
  payload : bytes;
  accepted : bool
}.

(** Where the calling goroutine stands: between two calls, or inside the
    [default] branch of [SendAudio], at line 303 or at line 304. *)
Inductive callerAt : Type :=
| Ready
| AtEvict (b : bytes)
| AtResend (b : bytes).

Record WSWriter : Type := {
  pending : list writerCall; (* the calls the caller has still to make *)
  caller : callerAt;
  audioCh : list bytes;
  tickerC : bool;            (* a tick waits in ticker.C *)
  ctxCancelled : bool;       (* ctx.Done() is closed *)
  running : bool;            (* loop has not returned *)
  conn : list wsWrite
}.

(** The scheduler's moves: the calling goroutine runs its next channel
    operation, the ticker fires, the context is cancelled, or the loop's
    [select] takes a case ([ok] is the outcome of its write). *)
Inductive move : Type :=
| Caller
| Tick
| Cancel
| Loop (c : selectCase) (ok : bool).

Section Scheduler.
Context {J : Json}.

Definition NewWSWriter (calls : list writerCall) : WSWriter :=
  {| pending := calls; caller := Ready; audioCh := []; tickerC := false;
     ctxCancelled := false; running := true; conn := [] |}.

(** The channel operations of [SendAudio] (lines 295-306), one per move.
    [SendControl] (line 292) cannot move on its own: it waits for the loop. *)
Definition callerStep (w : WSWriter) : option WSWriter :=
  match caller w with
  | Ready =>
      match pending w with
      | SendAudio v :: rest =>
          let b := json_Marshal v in
          if (length (audioCh w) <? audioCap)%nat
          then Some {| pending := rest; caller := Ready;
                       audioCh := audioCh w ++ [b]; tickerC := tickerC w;
                       ctxCancelled := ctxCancelled w; running := running w;
                       conn := conn w |}
          else Some {| pending := rest; caller := AtEvict b;
                       audioCh := audioCh w; tickerC := tickerC w;
                       ctxCancelled := ctxCancelled w; running := running w;
                       conn := conn w |}
      | _ => None
      end
  | AtEvict b =>
      match audioCh w with
      | _ :: q => Some {| pending := pending w; caller := AtResend b;
                          audioCh := q; tickerC := tickerC w;
                          ctxCancelled := ctxCancelled w; running := running w;
                          conn := conn w |}
      | [] => None
      end
  | AtResend b =>
      if (length (audioCh w) <? audioCap)%nat
      then Some {| pending := pending w; caller := Ready;
                   audioCh := audioCh w ++ [b]; tickerC := tickerC w;
                   ctxCancelled := ctxCancelled w; running := running w;
                   conn := conn w |}
      else None
  end.

(** The whole of [SendAudio] on the buffer alone, when no receive of the
    loop falls between its channel operations. *)
Definition sendAudio (b : bytes) (ch : list bytes) : list bytes :=
  if (length ch <? audioCap)%nat then ch ++ [b] else tl ch ++ [b].

(** [SetWriteDeadline] and [WriteMessage], then [return] on error. *)
Definition writeMessage (w : WSWriter) (c : selectCase) (ty : Z) (b : bytes)
  (ok : bool) : WSWriter :=
  {| pending := pending w; caller := caller w; audioCh := audioCh w;
     tickerC := tickerC w; ctxCancelled := ctxCancelled w; running := ok;
     conn := conn w ++ [{| from := c; msgType := ty; payload := b;
                           accepted := ok |}] |}.

(** One pass of the [select] of [WSWriter.loop] (lines 261-287) taking case
    [c]; [None] when the loop has returned or the case is not ready. *)
Definition loop (c : selectCase) (ok : bool) (w : WSWriter) : option WSWriter :=
  if negb (running w) then None
  else
    match c with
    | CaseDone =>
        if ctxCancelled w
        then Some {| pending := pending w; caller := caller w;
                     audioCh := audioCh w; tickerC := tickerC w;
                     ctxCancelled := true; running := false; conn := conn w |}
        else None
    | CaseControl =>
        match caller w, pending w with
        | Ready, SendControl v :: rest =>
            Some (writeMessage
                    {| pending := rest; caller := Ready; audioCh := audioCh w;
                       tickerC := tickerC w; ctxCancelled := ctxCancelled w;
                       running := running w; conn := conn w |}
                    CaseControl TextMessage (json_Marshal v) ok)
        | _, _ => None
        end
    | CaseAudio =>
        match audioCh w with
        | msg :: q =>
            Some (writeMessage
                    {| pending := pending w; caller := caller w; audioCh := q;
                       tickerC := tickerC w; ctxCancelled := ctxCancelled w;
                       running := running w; conn := conn w |}
                    CaseAudio TextMessage msg ok)
        | [] => None
        end
    | CaseTicker =>
        if tickerC w
        then Some (writeMessage
                     {| pending := pending w; caller := caller w;
                        audioCh := audioCh w; tickerC := false;
                        ctxCancelled := ctxCancelled w; running := running w;
                        conn := conn w |}
                     CaseTicker PingMessage [] ok)
        else None
    end.

Definition step (m : move) (w : WSWriter) : option WSWriter :=
  match m with
  | Caller => callerStep w
  | Tick => Some {| pending := pending w; caller := caller w;
                    audioCh := audioCh w; tickerC := true;
                    ctxCancelled := ctxCancelled w; running := running w;
                    conn := conn w |}
  | Cancel => Some {| pending := pending w; caller := caller w;
                      audioCh := audioCh w; tickerC := tickerC w;
                      ctxCancelled := true; running := running w;
                      conn := conn w |}
  | Loop c ok => loop c ok w
  end.

(** A schedule, move by move; [None] if a move is not enabled. *)
Fixpoint run (ms : list move) (w : WSWriter) : option WSWriter :=
  match ms with
  | [] => Some w
  | m :: rest =>
      match step m w with
      | Some w' => run rest w'
      | None => None
      end
  end.

(** The values passed to [SendControl] among [calls], in order. *)
Fixpoint controlsOf (calls : list writerCall) : list jvalue :=
  match calls with
  | [] => []
  | SendControl v :: rest => v :: controlsOf rest
  | SendAudio _ :: rest => controlsOf rest
  end.

(** The payloads the case [c] handed to [WriteMessage], in order. *)
Definition writesOf (c : selectCase) (ws : list wsWrite) : list bytes :=
  map payload
    (filter (fun x => match from x, c with
                      | CaseControl, CaseControl | CaseAudio, CaseAudio
                      | CaseTicker, CaseTicker | CaseDone, CaseDone => true
                      | _, _ => false
                      end) ws).

(** Whether case [c] of the loop's [select] can proceed in [w]: the context
    is cancelled, a caller is parked on [controlCh], [audioCh] holds a
    message, a tick waits. *)
Definition selectReady (c : selectCase) (w : WSWriter) : bool :=
  match c with
  | CaseDone => ctxCancelled w
  | CaseControl =>
      match caller w, pending w with
      | Ready, SendControl _ :: _ => true
      | _, _ => false
      end
  | CaseAudio => match audioCh w with [] => false | _ => true end
  | CaseTicker => tickerC w
  end.

(** What the caller has handed over so far: the calls [calls0] lost are
    exactly those whose control messages the loop passed to
    [WriteMessage], in order. *)
Definition controlInv (calls0 : list writerCall) (w : WSWriter) : Prop :=
  exists done,
    calls0 = done ++ pending w
    /\ writesOf CaseControl (conn w) = map json_Marshal (controlsOf done).

(** Only the last write may have failed, and none while the loop runs. *)
Definition acceptedInv (w : WSWriter) : Prop :=
  Forall (fun x => accepted x = true) (removelast (conn w))
  /\ (running w = true -> Forall (fun x => accepted x = true) (conn w)).

(** The audio buffer within its capacity, with room for the message the
    caller is about to put back. *)
Definition audioInv (w : WSWriter) : Prop :=
  (length (audioCh w) <= audioCap)%nat
  /\ match caller w with
     | AtResend _ => (length (audioCh w) < audioCap)%nat
     | _ => True
     end.

End Scheduler.

(** ** The framed downstream format

    [main.go] keeps no generation counter, never reads the [raw] parameter of
    the request and frames nothing. The definitions of this module state the
    framed format of section 4.4 and section 6 of the specification (the
    layout of the front-end documentation), so that what the program writes
    can be compared with it. *)

Module Framer.

(** Modelled from the spec: the [rawMode] flag of a session, which the
    handler is missing; it is fixed from the connection request, [raw=1]
    asking for unframed audio and [raw=0] for framed audio. *)
Definition rawMode (r : Request) : option bool :=
  match find (fun kv => String.eqb (fst kv) "raw") (query r) with
  | Some (_, v) =>
      if String.eqb v "1" then Some true
      else if String.eqb v "0" then Some false
      else None
  | None => None
  end.

(** Modelled from the spec: the tag of a binary audio frame, which the
    program is missing. *)
Definition tagAudio : byte := x01.

(** Modelled from the spec: the 8 bytes of the generation [g] as an unsigned
    integer, least significant first; the program has no generation. *)
Definition le64 (g : N) : bytes :=
  map (fun i => byte_of_N (N.shiftr g (8 * N.of_nat i))) (seq 0 8).

(** The unsigned integer a list of bytes holds, least significant first. *)
Fixpoint fromLE (bs : bytes) : N :=
  match bs with
  | [] => 0%N
  | b :: rest => (Byte.to_N b + 256 * fromLE rest)%N
  end.

(** Modelled from the spec: [currentFrame(pcmBytes)], which the program is
    missing; tag, generation and payload for a framed session, the payload
    alone for a raw one. *)
Definition currentFrame (raw : bool) (g : N) (pcm : bytes) : bytes :=
  if raw then pcm else tagAudio :: le64 g ++ pcm.

(** Modelled from the spec: what the client of a framed session reads off a
    binary message: the tag in byte 0, the generation in bytes 1 to 8, the
    payload from byte 9 on. *)
Definition parseFrame (frame : bytes) : option (byte * N * bytes) :=
  match frame with
  | tag :: rest =>
      if (length rest <? 8)%nat then None
      else Some (tag, fromLE (firstn 8 rest), skipn 8 rest)
  | [] => None
  end.

(** Modelled from the spec: the generation values the client of a framed
    session observes on the wire, in order: the generation field of every
    binary message written to it that is long enough for a header and
    starts with the audio tag. *)
Fixpoint wireGenerations (ws : list (Z * bytes)) : list N :=
  match ws with
  | [] => []
  | (ty, data) :: rest =>
      if (ty =? BinaryMessage)%Z then
        match parseFrame data with
        | Some (tag, g, _) =>
            if Byte.eqb tag tagAudio then g :: wireGenerations rest
            else wireGenerations rest
        | None => wireGenerations rest
        end
      else wireGenerations rest
  end.

Fixpoint nondecreasing (gs : list N) : Prop :=
  match gs with
  | [] => True
  | g :: rest =>
      match rest with
      | [] => True
      | g' :: _ => (g <= g')%N
      end /\ nondecreasing rest
  end.

End Framer.

(** ** A JSON codec for the examples

    A printer without escapes, and a decoder that recognises the printed form
    of the events of a fixed table. *)

Module Sample.

Definition dq : string := String (ascii_of_nat 34) EmptyString.

Fixpoint show (v : jvalue) : string :=
  match v with
  | JNull => "null"
  | JBool true => "true"
  | JBool false => "false"
  | JNumber literal => literal
  | JString s => dq ++ s ++ dq
  | JArray items =>
      "[" ++ (fix items_ (l : list jvalue) : string :=
                match l with
                | [] => ""
                | [x] => show x
                | x :: r => show x ++ "," ++ items_ r
                end) items ++ "]"
  | JObject fields =>
      "{" ++ (fix fields_ (l : list (string * jvalue)) : string :=
                match l with
                | [] => ""
                | [(k, x)] => dq ++ k ++ dq ++ ":" ++ show x
                | (k, x) :: r => dq ++ k ++ dq ++ ":" ++ show x ++ "," ++ fields_ r
                end) fields ++ "}"
  end%string.

Definition marshal (v : jvalue) : bytes := bytes_of_string (show v).

Definition errorEvent : openAIEvent :=
  [ ("type", JString "error"); ("message", JString "rate limit") ]%string.

Definition deltaEvent (delta : string) : openAIEvent :=
  [ ("type", JString "response.output_audio.delta");
    ("delta", JString delta) ]%string.

Definition doneEvent : openAIEvent := [ ("type", JString "response.done") ]%string.

Definition speechStartedEvent : openAIEvent :=
  [ ("type", JString "input_audio_buffer.speech_started") ]%string.

(** Two payloads of 12 bytes (6 samples of PCM16): read by the frame layout,
    they start with the audio tag and carry the generations 5 and 3. *)
Definition pcmFive : bytes :=
  [x01; x05; x00; x00; x00; x00; x00; x00; x00; x10; x20; x30].
Definition pcmThree : bytes :=
  [x01; x03; x00; x00; x00; x00; x00; x00; x00; x40; x50; x60].

Definition table : list openAIEvent :=
  [ errorEvent; deltaEvent "AAAA"; deltaEvent "AAA*"; deltaEvent "aGVsbG8=";
    deltaEvent (Base64.EncodeToString pcmFive);
    deltaEvent (Base64.EncodeToString pcmThree);
    doneEvent; speechStartedEvent ].

Definition unmarshal (msg : bytes) : option openAIEvent :=
  find (fun evt => String.eqb (show (JObject evt)) (string_of_bytes msg)) table.

Definition json : Json :=
  {| json_Marshal := marshal;
     json_MarshalIndent := fun evt => marshal (JObject evt);
     json_Unmarshal := unmarshal |}.

(** A request for a framed session, and upstream and client units. *)
Definition framedRequest : Request := {| query := [("raw", "0")]%string |}.

Definition deltaMsg (delta : string) : bytes := marshal (JObject (deltaEvent delta)).

Definition frame (s : string) : clientRead :=
  ClientMessage BinaryMessage (bytes_of_string s).

Definition text (s : string) : clientRead :=
  ClientMessage TextMessage (bytes_of_string s).

(** The upstream sends two audio deltas, with the payloads [pcmFive] and
    [pcmThree]. *)
Definition twoDeltas : list upstreamRead :=
  [ UpMessage (deltaMsg (Base64.EncodeToString pcmFive));
    UpMessage (deltaMsg (Base64.EncodeToString pcmThree)) ].

(** The client sends a frame, [cancel], a frame and [clear]; the loop
    writes the first frame between the control messages. *)
Definition calls : list writerCall :=
  handlerCalls [frame "a"; text "cancel"; frame "b"; text "clear"].

Definition schedule : list move :=
  [Loop CaseControl true; Caller; Loop CaseControl true; Caller;
   Loop CaseAudio true; Loop CaseControl true].

Definition final : WSWriter :=
  Eval vm_compute in
    match run (J:=json) schedule (NewWSWriter calls) with
    | Some w => w
    | None => NewWSWriter []
    end.

(** A writer whose audio buffer is full when the caller comes to
    [SendAudio]. *)
Definition full : WSWriter :=
  {| pending := [SendAudio (JString "e")]; caller := Ready;
     audioCh := map marshal [JString "a"; JString "b"; JString "c"; JString "d"];
     tickerC := false; ctxCancelled := false; running := true; conn := [] |}.

End Sample.

(** ** Further definitions: order and accounting on the writer *)

(** [subseq xs ys]: [xs] is [ys] with some elements left out, the others in
    the same order. *)
Inductive subseq {A : Type} : list A -> list A -> Prop :=
| subseq_nil : forall ys, subseq [] ys
| subseq_keep : forall x xs ys, subseq xs ys -> subseq (x :: xs) (x :: ys)
| subseq_drop : forall y xs ys, subseq xs ys -> subseq xs (y :: ys).

(** The values passed to [SendAudio] among [calls], in order. *)
Fixpoint audiosOf (calls : list writerCall) : list jvalue :=
  match calls with
  | [] => []
  | SendAudio v :: rest => v :: audiosOf rest
  | SendControl _ :: rest => audiosOf rest
  end.

(** The value a call passes to the writer. *)
Definition callValue (c : writerCall) : jvalue :=
  match c with
  | SendControl v => v
  | SendAudio v => v
  end.

(** The number of times the ticker fires in a schedule. *)
Fixpoint ticks (ms : list move) : nat :=
  match ms with
  | [] => 0
  | Tick :: rest => S (ticks rest)
  | _ :: rest => ticks rest
  end.


Section SchedulerAccounting.
Context {J : Json}.

(** The audio messages the caller has handed over: those written by the
    loop followed by those still buffered are, in order, among the ones
    submitted; while the caller is inside the [default] branch of
    [SendAudio], the message it holds is the last one submitted. *)
Definition audioOrderInv (calls0 : list writerCall) (w : WSWriter) : Prop :=
  exists done,
    calls0 = done ++ pending w
    /\ match caller w with
       | Ready =>
           subseq (writesOf CaseAudio (conn w) ++ audioCh w)
                  (map json_Marshal (audiosOf done))
       | AtEvict b | AtResend b =>
           exists before,
             map json_Marshal (audiosOf done) = before ++ [b]
             /\ subseq (writesOf CaseAudio (conn w) ++ audioCh w) before
       end.

(** No audio message is lost while the buffer has room for all the calls
    still to come. *)
Definition audioRoomInv (calls0 : list writerCall) (w : WSWriter) : Prop :=
  caller w = Ready
  /\ (length (audioCh w) + length (audiosOf (pending w)) <= audioCap)%nat
  /\ exists done,
      calls0 = done ++ pending w
      /\ writesOf CaseAudio (conn w) ++ audioCh w
         = map json_Marshal (audiosOf done).

(** Pings written plus the tick waiting in [ticker.C]. *)
Definition pingCredit (w : WSWriter) : nat :=
  length (writesOf CaseTicker (conn w)) + (if tickerC w then 1 else 0).

(** The shape of a write: a text message carrying the marshalled value of
    one of the calls [calls0], or a ping without payload. *)
Definition wellFormedWrite (calls0 : list writerCall) (x : wsWrite) : Prop :=
  match from x with
  | CaseControl | CaseAudio =>
      msgType x = TextMessage
      /\ In (payload x) (map (fun c => json_Marshal (callValue c)) calls0)
  | CaseTicker => msgType x = PingMessage /\ payload x = []
  | CaseDone => False
  end.

Definition wellFormedInv (calls0 : list writerCall) (w : WSWriter) : Prop :=
  (exists done, calls0 = done ++ pending w)
  /\ Forall (wellFormedWrite calls0) (conn w)
  /\ Forall (fun b => In b (map (fun c => json_Marshal (callValue c)) calls0))
       (audioCh w)
  /\ match caller w with
     | Ready => True
     | AtEvict b | AtResend b =>
         In b (map (fun c => json_Marshal (callValue c)) calls0)
     end.


End SchedulerAccounting.

(** ** Further definitions: what the receiver and the handler relay *)

(** The characters [DecodeString] does not reject on sight: the alphabet,
    the padding character and the two newline characters. *)
Definition base64Char (c : ascii) : bool :=
  match Base64.decodeMap c with
  | Some _ => true
  | None => Base64.isNewline c || Ascii.eqb c Base64.padChar
  end.

(** The characters of a string that are not newlines: those [decodeQuantum]
    looks at. *)
Definition significant (s : list ascii) : list ascii :=
  filter (fun c => negb (Base64.isNewline c)) s.

(** The text messages among the messages written to a socket. *)
Definition textMessages (ws : list (Z * bytes)) : list bytes :=
  map snd (filter (fun m => (fst m =? TextMessage)%Z) ws).

Section Relayed.
Context {J : Json}.

(** The diagnostic an upstream message gives rise to: the indented JSON of
    an event of type [error]. *)
Definition errorText (msg : bytes) : option bytes :=
  match json_Unmarshal msg with
  | Some evt =>
      if String.eqb (stringField evt "type") "error"
      then Some (json_MarshalIndent evt)
      else None
  | None => None
  end.

(** The diagnostics of the error events among the reads [rs], in order of
    arrival, up to the first read error. *)
Fixpoint errorTexts (rs : list upstreamRead) : list bytes :=
  match rs with
  | [] => []
  | UpError :: _ => []
  | UpMessage msg :: rest =>
      match errorText msg with
      | Some pretty => pretty :: errorTexts rest
      | None => errorTexts rest
      end
  end.

End Relayed.

(** The payloads of the binary frames among the client reads [rs], in order,
    up to the first read error. *)
Fixpoint binaryPayloads (rs : list clientRead) : list bytes :=
  match rs with
  | [] => []
  | ClientError _ :: _ => []
  | ClientMessage msgType data :: rest =>
      if (msgType =? BinaryMessage)%Z then data :: binaryPayloads rest
      else binaryPayloads rest
  end.

(** The [audio] field of an event passed to the writer, decoded. *)
Definition decodedAudio (v : jvalue) : option bytes :=
  match v with
  | JObject evt => Base64.DecodeString (stringField evt "audio")
  | _ => None
  end.

(** The events the handler can pass to the writer for the client reads
    [rs]. *)
Definition upstreamVocabulary (rs : list clientRead) (v : jvalue) : Prop :=
  v = sessionUpdate
  \/ v = JObject clearEvent \/ v = JObject cancelEvent \/ v = JObject forceEvent
  \/ exists data, In (ClientMessage BinaryMessage data) rs
                  /\ v = JObject (appendEvent data).

(** ** Further definitions: the client socket, shared with [pingLoop]

    The receiver goroutine and [pingLoop] (main.go, lines 309-326) both write
    to the client socket, each write under [clientWriteMu]; [cancel()] is
    called by the receiver on a read error and by the handler goroutine on a
    client read error. *)

(** A move on the client side: the receiver handles a read; the [select] of
    [pingLoop] takes the ticker ([ok] is the outcome of the ping) or the
    cancelled context; the handler goroutine calls [cancel()]. *)
Inductive clientMove : Type :=
| Receive (r : upstreamRead)
| PingTick (ok : bool)
| PingDone
| HandlerCancel.

Record clientSide : Type := {
  session : Session;
  receiving : bool;  (* the receiver goroutine has not returned *)
  pinging : bool     (* pingLoop has not returned *)
}.

(** The client side right after [go pingLoop(...)] and the start of the
    receiver. *)
Definition clientStart (s : Session) : clientSide :=
  {| session := s; receiving := true; pinging := true |}.

(** The reads the receiver handles in a schedule. *)
Fixpoint received (ms : list clientMove) : list upstreamRead :=
  match ms with
  | [] => []
  | Receive r :: rest => r :: received rest
  | _ :: rest => received rest
  end.

(** The messages written to a socket that are not pings. *)
Definition noPings (ws : list (Z * bytes)) : list (Z * bytes) :=
  filter (fun m => negb (fst m =? PingMessage)%Z) ws.

(** The pings written to a socket. *)
Definition pings (ws : list (Z * bytes)) : list (Z * bytes) :=
  filter (fun m => (fst m =? PingMessage)%Z) ws.

(** Whether a schedule holds an event that cancels the context: an upstream
    read error, or the handler's [cancel()]. *)
Fixpoint cancels (ms : list clientMove) : bool :=
  match ms with
  | [] => false
  | Receive UpError :: _ => true
  | HandlerCancel :: _ => true
  | _ :: rest => cancels rest
  end.

Section ClientSide.
Context {J : Json}.

(** One pass of the [select] of [pingLoop]: on a tick, a ping with no
    payload is written and the loop returns if the write failed; on the
    cancelled context the loop returns. *)
Definition pingLoop (tick : option bool) (c : clientSide) : option clientSide :=
  if negb (pinging c) then None
  else
    match tick with
    | Some ok =>
        Some {| session := writeClient (session c) PingMessage [];
                receiving := receiving c; pinging := ok |}
    | None =>
        if ctxDone (session c)
        then Some {| session := session c; receiving := receiving c;
                     pinging := false |}
        else None
    end.

Definition clientSideStep (m : clientMove) (c : clientSide) : option clientSide :=
  match m with
  | Receive r =>
      if receiving c then
        match receiverStep (session c) r with
        | (Continue, s', _) =>
            Some {| session := s'; receiving := true; pinging := pinging c |}
        | (Return, s', _) =>
            Some {| session := s'; receiving := false; pinging := pinging c |}
        end
      else None
  | PingTick ok => pingLoop (Some ok) c
  | PingDone => pingLoop None c
  | HandlerCancel =>
      Some {| session := cancel (session c); receiving := receiving c;
              pinging := pinging c |}
  end.

Fixpoint clientSideRun (ms : list clientMove) (c : clientSide) : option clientSide :=
  match ms with
  | [] => Some c
  | m :: rest =>
      match clientSideStep m c with
      | Some c' => clientSideRun rest c'
      | None => None
      end
  end.

End ClientSide.

(** ** The writer of the earlier [main.go] (src/unnamed/part_001)

    That version has one channel [ch] of capacity 512 for every message:
    [SendJSON] marshals and sends, blocking while the channel is full; the
    loop selects among the context, [ch] and the ticker. Its handler makes
    the same calls as the present one, all through [SendJSON]. *)

Module SingleLane.

Definition chCap : nat := 512. (* make(chan []byte, 512) *)

(** The [case] of the [select] of the writer's goroutine. *)
Inductive selectCase : Type := CaseDone | CaseCh | CaseTicker.

(** [pending] holds the values the caller has still to pass to [SendJSON];
    [ch] is the buffer of the channel, oldest first; [conn] lists the calls
    of [w.conn.WriteMessage] with their outcome. *)
Record WSWriter : Type := {
  pending : list jvalue;
  ch : list bytes;
  tickerC : bool;
  ctxCancelled : bool;
  running : bool;
  conn : list (Z * bytes * bool)
}.

Inductive move : Type :=
| Caller
| Tick
| Cancel
| Loop (c : selectCase) (ok : bool).

Section Writer.
Context {J : Json}.

Definition NewWSWriter (calls : list jvalue) : WSWriter :=
  {| pending := calls; ch := []; tickerC := false; ctxCancelled := false;
     running := true; conn := [] |}.

(** [SendJSON]: the send proceeds when the buffer has room. *)
Definition SendJSON (w : WSWriter) : option WSWriter :=
  match pending w with
  | v :: rest =>
      if (length (ch w) <? chCap)%nat
      then Some {| pending := rest; ch := ch w ++ [json_Marshal v];
                   tickerC := tickerC w; ctxCancelled := ctxCancelled w;
                   running := running w; conn := conn w |}
      else None
  | [] => None
  end.

(** One pass of the [select] of the writer's goroutine taking case [c]. *)
Definition loop (c : selectCase) (ok : bool) (w : WSWriter) : option WSWriter :=
  if negb (running w) then None
  else
    match c with
    | CaseDone =>
        if ctxCancelled w
        then Some {| pending := pending w; ch := ch w; tickerC := tickerC w;
                     ctxCancelled := true; running := false; conn := conn w |}
        else None
    | CaseCh =>
        match ch w with
        | b :: q =>
            Some {| pending := pending w; ch := q; tickerC := tickerC w;
                    ctxCancelled := ctxCancelled w; running := ok;
                    conn := conn w ++ [(TextMessage, b, ok)] |}
        | [] => None
        end
    | CaseTicker =>
        if tickerC w
        then Some {| pending := pending w; ch := ch w; tickerC := false;
                     ctxCancelled := ctxCancelled w; running := ok;
                     conn := conn w ++ [(PingMessage, [], ok)] |}
        else None
    end.

Definition step (m : move) (w : WSWriter) : option WSWriter :=
  match m with
  | Caller => SendJSON w
  | Tick => Some {| pending := pending w; ch := ch w; tickerC := true;
                    ctxCancelled := ctxCancelled w; running := running w;
                    conn := conn w |}
  | Cancel => Some {| pending := pending w; ch := ch w; tickerC := tickerC w;
                      ctxCancelled := true; running := running w;
                      conn := conn w |}
  | Loop c ok => loop c ok w
  end.

Fixpoint run (ms : list move) (w : WSWriter) : option WSWriter :=
  match ms with
  | [] => Some w
  | m :: rest =>
      match step m w with
      | Some w' => run rest w'
      | None => None
      end
  end.

(** The payloads of the text messages handed to [WriteMessage], in order. *)
Definition textWrites (ws : list (Z * bytes * bool)) : list bytes :=
  map (fun x => snd (fst x))
    (filter (fun x => (fst (fst x) =? TextMessage)%Z) ws).

(** Everything passed to [SendJSON] so far is written or queued, in the
    order of the calls, and the queue is within its capacity. *)
Definition fifoInv (calls0 : list jvalue) (w : WSWriter) : Prop :=
  (exists done,
      calls0 = done ++ pending w
      /\ textWrites (conn w) ++ ch w = map json_Marshal done)
  /\ (length (ch w) <= chCap)%nat.

End Writer.

(** The values the handler of that version passes to [SendJSON] over the
    client reads [rs]: the events of the present handler, in the same
    order. *)
Definition handlerEvents (rs : list clientRead) : list jvalue :=
  map callValue (handlerCalls rs).

End SingleLane.

(** ** Further sessions for the examples *)

Module Fixture.

(** An audio delta that has no [delta] field. *)
Definition noDeltaEvent : openAIEvent :=
  [ ("type", JString "response.output_audio.delta") ]%string.

Definition table : list openAIEvent :=
  [ noDeltaEvent; Sample.errorEvent; Sample.deltaEvent "AAAA" ].

(** [Sample.json] with the decoder reading the table above. *)
Definition json : Json :=
  {| json_Marshal := Sample.marshal;
     json_MarshalIndent := fun evt => Sample.marshal (JObject evt);
     json_Unmarshal := fun msg =>
       find (fun evt => String.eqb (Sample.show (JObject evt)) (string_of_bytes msg))
            table |}.

Definition message (evt : openAIEvent) : bytes := Sample.marshal (JObject evt).

(** Five audio calls on a writer whose loop is slow, then fast: the fifth
    call finds the buffer full, and the loop writes the four buffered
    messages before the caller comes to line 303. *)
Definition fiveFrames : list writerCall :=
  map (fun s => SendAudio (JString s)) ["a"; "b"; "c"; "d"; "e"]%string.

Definition drainSchedule : list move :=
  [Caller; Caller; Caller; Caller; Caller;
   Loop CaseAudio true; Loop CaseAudio true; Loop CaseAudio true;
   Loop CaseAudio true].

Definition drained : WSWriter :=
  Eval vm_compute in
    match run (J:=Sample.json) drainSchedule (NewWSWriter fiveFrames) with
    | Some w => w
    | None => NewWSWriter []
    end.

(** The same five calls when the loop writes one message between the
    fifth call's failed send (line 299) and its receive (line 303): the
    caller stands at line 304. *)
Definition raceSchedule : list move :=
  [Caller; Caller; Caller; Caller; Caller; Loop CaseAudio true; Caller].

Definition resending : WSWriter :=
  Eval vm_compute in
    match run (J:=Sample.json) raceSchedule (NewWSWriter fiveFrames) with
    | Some w => w
    | None => NewWSWriter []
    end.

(** The session of [Sample.calls] when the write of [session.update]
    fails. *)
Definition failedFirstWrite : WSWriter :=
  Eval vm_compute in
    match run (J:=Sample.json) [Loop CaseControl false] (NewWSWriter Sample.calls) with
    | Some w => w
    | None => NewWSWriter []
    end.

(** A schedule with two ticks while one ping is written. *)
Definition tickSchedule : list move :=
  [Tick; Tick; Loop CaseTicker true; Loop CaseControl true; Caller; Tick].

(** The client side: a delta, a ping, an error event, a ping that fails, a
    delta, then a read error. *)
Definition clientSchedule : list clientMove :=
  [ Receive (UpMessage (message (Sample.deltaEvent "AAAA")));
    PingTick true;
    Receive (UpMessage (message Sample.errorEvent));
    PingTick false;
    Receive (UpMessage (message (Sample.deltaEvent "AAAA")));
    Receive UpError ].

Definition clientEnd : clientSide :=
  Eval vm_compute in
    match clientSideRun (J:=json) clientSchedule
            (clientStart (newSession Sample.framedRequest)) with
    | Some c => c
    | None => clientStart (newSession Sample.framedRequest)
    end.

(** The client side after a first ping that fails, and after the delta
    relayed next. *)
Definition pingFailed : clientSide :=
  Eval vm_compute in
    match clientSideStep (J:=json) (PingTick false)
            (clientStart (newSession Sample.framedRequest)) with
    | Some c => c
    | None => clientStart (newSession Sample.framedRequest)
    end.

Definition relayedAfterPingFailed : clientSide :=
  Eval vm_compute in
    match clientSideRun (J:=json)
            [Receive (UpMessage (message (Sample.deltaEvent "AAAA")))]
            pingFailed with
    | Some c => c
    | None => pingFailed
    end.

(** The earlier writer: three events sent, two of them written. *)
Definition singleLaneSchedule : list SingleLane.move :=
  [SingleLane.Caller; SingleLane.Caller; SingleLane.Loop SingleLane.CaseCh true;
   SingleLane.Caller; SingleLane.Tick; SingleLane.Loop SingleLane.CaseCh true].

Definition singleLaneEnd : SingleLane.WSWriter :=
  Eval vm_compute in
    match SingleLane.run (J:=Sample.json) singleLaneSchedule
            (SingleLane.NewWSWriter
               (SingleLane.handlerEvents
                  [Sample.frame "a"; Sample.text "cancel"])) with
    | Some w => w
    | None => SingleLane.NewWSWriter []
    end.

End Fixture.

(** * Properties *)

(** ** [encoding/base64]: decoding undoes encoding *)

Example base64_hello :
  Base64.EncodeToString (bytes_of_string "hello") = "aGVsbG8="%string.
Proof. reflexivity. Qed.

Example base64_decode_bad :
  Base64.DecodeString "aGVsbG8" = None /\ Base64.DecodeString "a*==" = None.
Proof. split; reflexivity. Qed.

Section BitFacts.
Local Open Scope N_scope.
Local Ltac Zify.zify_post_hook ::= Z.to_euclidean_division_equations.

Lemma land_shiftl_small (a b k : N) :
  b < 2 ^ k -> N.land (N.shiftl a k) b = 0.
Proof.
  intros Hb. apply N.bits_inj; intro n.
  rewrite N.land_spec, N.bits_0.
  destruct (N.lt_ge_cases n k) as [Hlt|Hge].
  - rewrite N.shiftl_spec_low by assumption. reflexivity.
  - replace (N.testbit b n) with false; [apply andb_false_r|].
    symmetry. apply N.testbit_false. rewrite N.div_small; [reflexivity|].
    eapply N.lt_le_trans; [eassumption|]. apply N.pow_le_mono_r; lia.
Qed.

Lemma lor_shiftl_add (a b k : N) :
  b < 2 ^ k -> N.lor (N.shiftl a k) b = a * 2 ^ k + b.
Proof.
  intros Hb. pose proof (land_shiftl_small a b k Hb) as H0.
  rewrite <- N.lxor_lor by exact H0.
  rewrite <- N.add_nocarry_lxor by exact H0.
  now rewrite N.shiftl_mul_pow2.
Qed.

Lemma land_63 (v : N) : N.land v 63 = v mod 64.
Proof. change 63 with (N.ones 6). now rewrite N.land_ones. Qed.

Lemma land_255 (v : N) : N.land v 255 = v mod 256.
Proof. change 255 with (N.ones 8). now rewrite N.land_ones. Qed.

Lemma byte_of_N_spec (n : N) (b : byte) :
  n mod 256 = Byte.to_N b -> byte_of_N n = b.
Proof.
  intros H. unfold byte_of_N. rewrite land_255, H, Byte.of_to_N. reflexivity.
Qed.

Lemma byte_of_to_N (b : byte) : byte_of_N (Byte.to_N b) = b.
Proof.
  apply byte_of_N_spec. apply N.mod_small.
  pose proof (Byte.to_N_bounded b). lia.
Qed.

(** The 24-bit value of a group, as a sum. *)
Lemma group_value (a b c : N) :
  a < 256 -> b < 256 -> c < 256 ->
  N.lor (N.shiftl a 16) (N.lor (N.shiftl b 8) c) = a * 65536 + b * 256 + c.
Proof.
  intros Ha Hb Hc.
  rewrite (lor_shiftl_add b c 8) by (simpl; lia).
  rewrite lor_shiftl_add by (simpl; lia).
  simpl. lia.
Qed.

(** Four 6-bit values put together again. *)
Lemma quantum_value (s0 s1 s2 s3 : N) :
  s1 < 64 -> s2 < 64 -> s3 < 64 ->
  N.lor (N.shiftl s0 18) (N.lor (N.shiftl s1 12) (N.lor (N.shiftl s2 6) s3))
  = s0 * 262144 + s1 * 4096 + s2 * 64 + s3.
Proof.
  intros H1 H2 H3.
  rewrite (lor_shiftl_add s2 s3 6) by (simpl; lia).
  rewrite (lor_shiftl_add s1 _ 12) by (simpl; lia).
  rewrite lor_shiftl_add by (simpl; lia).
  simpl. lia.
Qed.

Lemma shiftr_div (v k : N) : N.shiftr v k = v / 2 ^ k.
Proof. apply N.shiftr_div_pow2. Qed.

End BitFacts.

Section Base64Facts.
Import Base64.
Local Open Scope N_scope.
Local Ltac Zify.zify_post_hook ::= Z.to_euclidean_division_equations.

Lemma decodeMap_encodeChar (i : N) :
  i < 64 -> decodeMap (encodeChar i) = Some i.
Proof.
  intros Hi.
  destruct i as [|p]; [reflexivity|].
  do 6 (destruct p as [p|p|]; try reflexivity; try lia).
Qed.

Lemma land_63_lt (v : N) : N.land v 63 < 64.
Proof. rewrite land_63. lia. Qed.

(** The four 6-bit values of a 24-bit group give the group back. *)
Lemma sextets_sum (v : N) :
  v < 16777216 ->
  N.land (N.shiftr v 18) 63 * 262144 + N.land (N.shiftr v 12) 63 * 4096
  + N.land (N.shiftr v 6) 63 * 64 + N.land v 63 = v.
Proof.
  intros Hv. rewrite !land_63, !shiftr_div.
  change (2 ^ 18) with 262144. change (2 ^ 12) with 4096.
  change (2 ^ 6) with 64. lia.
Qed.

Lemma quantumBytes_4 (v : N) (b0 b1 b2 : byte) :
  v = Byte.to_N b0 * 65536 + Byte.to_N b1 * 256 + Byte.to_N b2 ->
  quantumBytes [N.land (N.shiftr v 18) 63; N.land (N.shiftr v 12) 63;
                N.land (N.shiftr v 6) 63; N.land v 63]
  = [b0; b1; b2].
Proof.
  intros Hv.
  pose proof (Byte.to_N_bounded b0) as B0.
  pose proof (Byte.to_N_bounded b1) as B1.
  pose proof (Byte.to_N_bounded b2) as B2.
  unfold quantumBytes. cbn [nth length Nat.sub firstn].
  rewrite quantum_value by apply land_63_lt.
  rewrite sextets_sum by lia.
  rewrite !shiftr_div. change (2 ^ 16) with 65536. change (2 ^ 8) with 256.
  f_equal; [|f_equal; [|f_equal]]; apply byte_of_N_spec; lia.
Qed.

Lemma quantumBytes_3 (v : N) (b0 b1 : byte) :
  v = Byte.to_N b0 * 65536 + Byte.to_N b1 * 256 ->
  quantumBytes [N.land (N.shiftr v 18) 63; N.land (N.shiftr v 12) 63;
                N.land (N.shiftr v 6) 63]
  = [b0; b1].
Proof.
  intros Hv.
  pose proof (Byte.to_N_bounded b0) as B0.
  pose proof (Byte.to_N_bounded b1) as B1.
  assert (H0 : N.land v 63 = 0) by (rewrite land_63; lia).
  pose proof (sextets_sum v ltac:(lia)) as Hsum. rewrite H0 in Hsum.
  unfold quantumBytes. cbn [nth length Nat.sub firstn].
  rewrite quantum_value by (try apply land_63_lt; lia).
  rewrite Hsum.
  rewrite !shiftr_div. change (2 ^ 16) with 65536. change (2 ^ 8) with 256.
  f_equal; [|f_equal]; apply byte_of_N_spec; lia.
Qed.

Lemma quantumBytes_2 (v : N) (b0 : byte) :
  v = Byte.to_N b0 * 65536 ->
  quantumBytes [N.land (N.shiftr v 18) 63; N.land (N.shiftr v 12) 63] = [b0].
Proof.
  intros Hv.
  pose proof (Byte.to_N_bounded b0) as B0.
  assert (H6 : N.land (N.shiftr v 6) 63 = 0)
    by (rewrite land_63, shiftr_div; change (2 ^ 6) with 64; lia).
  assert (H0 : N.land v 63 = 0) by (rewrite land_63; lia).
  pose proof (sextets_sum v ltac:(lia)) as Hsum. rewrite H0, H6 in Hsum.
  unfold quantumBytes. cbn [nth length Nat.sub firstn].
  rewrite quantum_value by (try apply land_63_lt; lia).
  rewrite Hsum.
  rewrite !shiftr_div. change (2 ^ 16) with 65536.
  f_equal. apply byte_of_N_spec; lia.
Qed.

Lemma decodeFrom_4 (c0 c1 c2 c3 : ascii) (s0 s1 s2 s3 : N) (rest : list ascii) :
  decodeMap c0 = Some s0 -> decodeMap c1 = Some s1 ->
  decodeMap c2 = Some s2 -> decodeMap c3 = Some s3 ->
  decodeFrom (c0 :: c1 :: c2 :: c3 :: rest) []
  = option_map (app (quantumBytes [s0; s1; s2; s3])) (decodeFrom rest []).
Proof.
  intros H0 H1 H2 H3.
  cbn [decodeFrom]. rewrite H0. cbn [length Nat.eqb app].
  rewrite H1. cbn [length Nat.eqb app].
  rewrite H2. cbn [length Nat.eqb app].
  rewrite H3. cbn [length Nat.eqb app]. reflexivity.
Qed.

Lemma decodeFrom_3 (c0 c1 c2 : ascii) (s0 s1 s2 : N) :
  decodeMap c0 = Some s0 -> decodeMap c1 = Some s1 ->
  decodeMap c2 = Some s2 ->
  decodeFrom [c0; c1; c2; padChar] [] = Some (quantumBytes [s0; s1; s2]).
Proof.
  intros H0 H1 H2.
  cbn [decodeFrom]. rewrite H0. cbn [length Nat.eqb app].
  rewrite H1. cbn [length Nat.eqb app].
  rewrite H2. cbn [length Nat.eqb app]. reflexivity.
Qed.

Lemma decodeFrom_2 (c0 c1 : ascii) (s0 s1 : N) :
  decodeMap c0 = Some s0 -> decodeMap c1 = Some s1 ->
  decodeFrom [c0; c1; padChar; padChar] [] = Some (quantumBytes [s0; s1]).
Proof.
  intros H0 H1.
  cbn [decodeFrom]. rewrite H0. cbn [length Nat.eqb app].
  rewrite H1. cbn [length Nat.eqb app]. reflexivity.
Qed.

Lemma decode_encode3 (b0 b1 b2 : byte) (rest : list ascii) :
  decodeFrom (encode3 b0 b1 b2 ++ rest) []
  = option_map (app [b0; b1; b2]) (decodeFrom rest []).
Proof.
  pose proof (Byte.to_N_bounded b0). pose proof (Byte.to_N_bounded b1).
  pose proof (Byte.to_N_bounded b2).
  unfold encode3. cbv zeta. cbn [app].
  rewrite group_value by lia.
  erewrite decodeFrom_4 by (apply decodeMap_encodeChar, land_63_lt).
  erewrite quantumBytes_4 by reflexivity. reflexivity.
Qed.

Lemma decode_encode2 (b0 b1 : byte) :
  decodeFrom (encode2 b0 b1) [] = Some [b0; b1].
Proof.
  pose proof (Byte.to_N_bounded b0). pose proof (Byte.to_N_bounded b1).
  unfold encode2. cbv zeta.
  rewrite (lor_shiftl_add _ (N.shiftl (Byte.to_N b1) 8) 16)
    by (rewrite N.shiftl_mul_pow2; simpl; lia).
  rewrite N.shiftl_mul_pow2. change (2 ^ 16) with 65536. change (2 ^ 8) with 256.
  erewrite decodeFrom_3 by (apply decodeMap_encodeChar, land_63_lt).
  erewrite quantumBytes_3 by reflexivity. reflexivity.
Qed.

Lemma decode_encode1 (b0 : byte) :
  decodeFrom (encode1 b0) [] = Some [b0].
Proof.
  unfold encode1. cbv zeta.
  rewrite N.shiftl_mul_pow2. change (2 ^ 16) with 65536.
  erewrite decodeFrom_2 by (apply decodeMap_encodeChar, land_63_lt).
  erewrite quantumBytes_2 by reflexivity. reflexivity.
Qed.

(** Induction on a byte list three bytes at a time, as [Encode] reads it. *)
Lemma bytes_ind3 (P : bytes -> Prop) :
  P [] -> (forall b0, P [b0]) -> (forall b0 b1, P [b0; b1]) ->
  (forall b0 b1 b2 rest, P rest -> P (b0 :: b1 :: b2 :: rest)) ->
  forall src, P src.
Proof.
  intros H0 H1 H2 H3.
  assert (H : forall src, P src /\ (forall b, P (b :: src))
                          /\ (forall b b', P (b :: b' :: src))).
  { induction src as [|a src (IH0 & IH1 & IH2)].
    - repeat split; auto.
    - repeat split; auto. }
  intros src. apply H.
Qed.

Lemma decodeFrom_Encode (src : bytes) : decodeFrom (Encode src) [] = Some src.
Proof.
  induction src as [|b0|b0 b1|b0 b1 b2 rest IH] using bytes_ind3.
  - reflexivity.
  - apply decode_encode1.
  - apply decode_encode2.
  - cbn [Encode]. rewrite decode_encode3, IH. reflexivity.
Qed.

(** [DecodeString(EncodeToString(src))] returns [src] and no error. *)
Lemma DecodeString_EncodeToString (src : bytes) :
  DecodeString (EncodeToString src) = Some src.
Proof.
  unfold DecodeString, EncodeToString.
  rewrite list_ascii_of_string_of_list_ascii. apply decodeFrom_Encode.
Qed.

End Base64Facts.

(** ** The handler goroutine: the protocol translator *)

Section TranslatorFacts.
Local Open Scope string_scope.




(** C9: the append event made for a binary frame with payload [d] carries
    an [audio] field whose base64 decoding is exactly [d]. *)
Theorem append_audio_round_trip (d : bytes) :
  exists evt audio,
    clientStep (ClientMessage BinaryMessage d)
    = (Continue, [], [SendAudio (JObject evt)], false)
    /\ stringField evt "type" = "input_audio_buffer.append"
    /\ lookup "audio" evt = Some (JString audio)
    /\ Base64.DecodeString audio = Some d.
Proof.
  exists (appendEvent d), (Base64.EncodeToString d).
  repeat split. apply DecodeString_EncodeToString.
Qed.

(** Every iteration makes at most one call on the writer. *)
Lemma clientStep_one_call (r : clientRead) :
  (length (snd (fst (clientStep r))) <= 1)%nat.
Proof.
  destruct r as [msgType data|closed]; [|simpl; lia].
  unfold clientStep.
  destruct (msgType =? BinaryMessage)%Z; [simpl; lia|].
  destruct (msgType =? TextMessage)%Z; [|simpl; lia].
  cbv zeta.
  repeat match goal with
         | |- context [if ?c then _ else _] => destruct c
         end; simpl; lia.
Qed.

End TranslatorFacts.

(** ** The receiver goroutine: upstream events to the client *)

Section ReceiverFacts.
Context {J : Json}.
Local Open Scope string_scope.

(** The iteration on a decoded event, by its [type]. *)
Lemma receiverStep_decoded (s : Session) (msg : bytes) (evt : openAIEvent) :
  json_Unmarshal msg = Some evt ->
  receiverStep s (UpMessage msg)
  = let t := stringField evt "type" in
    if String.eqb t "error" then
      (Continue, writeClient s TextMessage (json_MarshalIndent evt),
       [LogOpenAIErrorEvent (json_MarshalIndent evt)])
    else if String.eqb t "response.output_audio.delta" then
      match Base64.DecodeString (stringField evt "delta") with
      | None => (Continue, s, [LogDecodeDeltaError])
      | Some pcm =>
          (Continue, writeClient s BinaryMessage pcm, [LogSendingPCM (length pcm)])
      end
    else if String.eqb t "response.done" then (Continue, s, [LogResponseDone])
    else (Continue, s, [LogOpenAIEvent t]).
Proof. intros H. unfold receiverStep. rewrite H. reflexivity. Qed.

(** A malformed unit is dropped: the iteration logs one line and continues
    with the session as it was. *)
Lemma receiverStep_malformed (msg : bytes) :
  malformed msg ->
  exists line, forall s, receiverStep s (UpMessage msg) = (Continue, s, [line]).
Proof.
  intros [Hjson|(evt & Hjson & Htype & Hdelta)].
  - exists LogOpenAIJSONError. intros s.
    unfold receiverStep. rewrite Hjson. reflexivity.
  - exists LogDecodeDeltaError. intros s.
    rewrite (receiverStep_decoded s msg evt Hjson). cbv zeta.
    rewrite Htype, Hdelta. reflexivity.
Qed.

(** An iteration that continues with the session unchanged can be left out
    of the reads without changing the session the loop ends in. *)
Lemma receiverLoop_skip (r : upstreamRead) (pre post : list upstreamRead) :
  (forall s, exists out, receiverStep s r = (Continue, s, out)) ->
  forall s,
    fst (receiverLoop s (pre ++ r :: post)%list)
    = fst (receiverLoop s (pre ++ post)%list).
Proof.
  intros Hr. induction pre as [|a pre IH]; intros s.
  - cbn [app receiverLoop]. destruct (Hr s) as [out ->].
    destruct (receiverLoop s post). reflexivity.
  - cbn [app receiverLoop].
    destruct (receiverStep s a) as [[[|] s'] out]; [|reflexivity].
    specialize (IH s').
    destruct (receiverLoop s' (pre ++ r :: post)%list),
             (receiverLoop s' (pre ++ post)%list).
    exact IH.
Qed.

(** C7: a malformed upstream unit (a message that fails JSON decoding, or
    an audio delta whose payload fails base64 decoding) is dropped alone:
    its iteration logs one line, writes nothing to the client, does not
    cancel the session and goes on to the next read; the reads after it are
    handled as if it had not been there, and so is the whole session. *)
Theorem malformed_unit_is_dropped (msg : bytes) :
  malformed msg ->
  exists line,
    (forall s, receiverStep s (UpMessage msg) = (Continue, s, [line]))
    /\ (forall s post,
          receiverLoop s (UpMessage msg :: post)
          = (fst (receiverLoop s post), line :: snd (receiverLoop s post)))
    /\ (forall s pre post,
          fst (receiverLoop s (pre ++ UpMessage msg :: post)%list)
          = fst (receiverLoop s (pre ++ post)%list)).
Proof.
  intros Hbad.
  destruct (receiverStep_malformed msg Hbad) as [line Hstep].
  exists line. split; [exact Hstep|]. split.
  - intros s post. cbn [receiverLoop]. rewrite Hstep.
    destruct (receiverLoop s post). reflexivity.
  - intros s pre post. apply receiverLoop_skip.
    intros s1. exists [line]. apply Hstep.
Qed.

(** C8: an upstream event of type [error] is written to the client as one
    text message (its indented JSON), and the receiver goes on: no
    [return], no [cancel()]. *)
Theorem error_event_is_forwarded (s : Session) (msg : bytes) (evt : openAIEvent) :
  json_Unmarshal msg = Some evt ->
  stringField evt "type" = "error" ->
  exists s' out,
    receiverStep s (UpMessage msg) = (Continue, s', out)
    /\ clientConn s' = (clientConn s ++ [(TextMessage, json_MarshalIndent evt)])%list
    /\ ctxDone s' = ctxDone s
    /\ request s' = request s.
Proof.
  intros Hjson Htype.
  rewrite (receiverStep_decoded s msg evt Hjson). cbv zeta. rewrite Htype.
  cbn [String.eqb Ascii.eqb Bool.eqb].
  eexists _, _. repeat split.
Qed.

(** C10: a decoded upstream event whose type is neither [error] nor
    [response.output_audio.delta] ([response.done], a speech-started event,
    any other) leaves the session as it was: nothing is written to the
    client, no notice is sent, the context is not cancelled. *)
Theorem other_events_change_nothing (s : Session) (msg : bytes) (evt : openAIEvent) :
  json_Unmarshal msg = Some evt ->
  stringField evt "type" <> "error" ->
  stringField evt "type" <> "response.output_audio.delta" ->
  exists out, receiverStep s (UpMessage msg) = (Continue, s, out).
Proof.
  intros Hjson Herr Hdelta.
  rewrite (receiverStep_decoded s msg evt Hjson). cbv zeta.
  destruct (String.eqb_spec (stringField evt "type") "error"); [contradiction|].
  destruct (String.eqb_spec (stringField evt "type") "response.output_audio.delta");
    [contradiction|].
  destruct (String.eqb (stringField evt "type") "response.done"); eexists; reflexivity.
Qed.

(** A frame of the documented layout is 9 bytes longer than its payload. *)
Lemma currentFrame_length (g : N) (pcm : bytes) :
  length (Framer.currentFrame false g pcm) = (9 + length pcm)%nat.
Proof.
  unfold Framer.currentFrame, Framer.le64.
  cbn [length]. rewrite length_app, length_map, length_seq. reflexivity.
Qed.

(** C1, amended: for every audio delta relayed to the client, in a session of
    any request (whatever its [raw] parameter), the binary message written
    to the client socket is exactly the decoded PCM payload; it has no tag
    and no generation header, so it is the frame of no generation. *)
Theorem audio_is_written_bare (s : Session) (msg : bytes)
    (evt : openAIEvent) (pcm : bytes) :
  json_Unmarshal msg = Some evt ->
  stringField evt "type" = "response.output_audio.delta" ->
  Base64.DecodeString (stringField evt "delta") = Some pcm ->
  receiverStep s (UpMessage msg)
  = (Continue, writeClient s BinaryMessage pcm, [LogSendingPCM (length pcm)])
  /\ forall g, pcm <> Framer.currentFrame false g pcm.
Proof.
  intros Hjson Htype Hdelta. split.
  - rewrite (receiverStep_decoded s msg evt Hjson). cbv zeta.
    rewrite Htype, Hdelta. reflexivity.
  - intros g Heq. apply (f_equal (@length byte)) in Heq.
    rewrite currentFrame_length in Heq. lia.
Qed.

Lemma binaryMessages_app (xs ys : list (Z * bytes)) :
  binaryMessages (xs ++ ys) = (binaryMessages xs ++ binaryMessages ys)%list.
Proof. unfold binaryMessages. now rewrite filter_app, map_app. Qed.

(** What one iteration adds to the binary messages of the client socket:
    the payload of the message read, if it is a decodable audio delta. *)
Lemma receiverStep_binary (s : Session) (msg : bytes) :
  exists s' out,
    receiverStep s (UpMessage msg) = (Continue, s', out)
    /\ binaryMessages (clientConn s')
       = (binaryMessages (clientConn s)
          ++ match audioPayload msg with Some pcm => [pcm] | None => [] end)%list.
Proof.
  unfold audioPayload.
  destruct (json_Unmarshal msg) as [evt|] eqn:Hjson.
  - rewrite (receiverStep_decoded s msg evt Hjson). cbv zeta.
    destruct (String.eqb_spec (stringField evt "type") "error") as [Herr|Herr].
    + rewrite Herr. cbn [String.eqb Ascii.eqb Bool.eqb].
      eexists _, _. split; [reflexivity|].
      cbn [writeClient clientConn]. rewrite binaryMessages_app.
      reflexivity.
    + destruct (String.eqb (stringField evt "type") "response.output_audio.delta").
      * destruct (Base64.DecodeString (stringField evt "delta")) as [pcm|].
        -- eexists _, _. split; [reflexivity|].
           cbn [writeClient clientConn]. rewrite binaryMessages_app.
           reflexivity.
        -- eexists _, _. split; [reflexivity|]. now rewrite app_nil_r.
      * destruct (String.eqb (stringField evt "type") "response.done");
          eexists _, _; (split; [reflexivity|]); now rewrite app_nil_r.
  - unfold receiverStep. rewrite Hjson.
    eexists _, _. split; [reflexivity|]. now rewrite app_nil_r.
Qed.

(** C2, amended: the program keeps no generation and puts none on the wire:
    over the life of a session the binary messages written to the client
    are exactly the decoded PCM payloads of the audio deltas read from
    upstream, bare and in order of arrival, up to the first read error. *)
Theorem receiver_relays_bare_payloads (s : Session) (rs : list upstreamRead) :
  binaryMessages (clientConn (fst (receiverLoop s rs)))
  = (binaryMessages (clientConn s) ++ deltaPayloads rs)%list.
Proof.
  revert s. induction rs as [|[msg|] rs IH]; intros s.
  - cbn [receiverLoop deltaPayloads fst]. now rewrite app_nil_r.
  - cbn [receiverLoop deltaPayloads].
    destruct (receiverStep_binary s msg) as (s' & out & -> & Hbin).
    specialize (IH s').
    destruct (receiverLoop s' rs) as [s'' out']. cbn [fst] in *.
    rewrite IH, Hbin, <- app_assoc.
    destruct (audioPayload msg); reflexivity.
  - cbn [receiverLoop receiverStep deltaPayloads fst cancel clientConn].
    now rewrite app_nil_r.
Qed.

End ReceiverFacts.

(** ** [WSWriter]: lanes, order and capacity *)

Section SchedulerFacts.
Context {J : Json}.

Lemma controlsOf_app (xs ys : list writerCall) :
  controlsOf (xs ++ ys) = controlsOf xs ++ controlsOf ys.
Proof.
  induction xs as [|[v|v] xs IH]; cbn [app controlsOf]; rewrite ?IH; reflexivity.
Qed.

Lemma writesOf_app (c : selectCase) (xs ys : list wsWrite) :
  writesOf c (xs ++ ys) = writesOf c xs ++ writesOf c ys.
Proof. unfold writesOf. now rewrite filter_app, map_app. Qed.

Lemma controlInv_step (calls0 : list writerCall) (m : move) (w w' : WSWriter) :
  controlInv calls0 w -> step m w = Some w' -> controlInv calls0 w'.
Proof.
  intros (done & Hcalls & Hconn) Hstep.
  destruct m as [| | |c ok]; cbn [step] in Hstep.
  - unfold callerStep in Hstep.
    destruct (caller w) as [|b|b].
    + destruct (pending w) as [|[v|v] rest] eqn:Hp; try discriminate.
      exists (done ++ [SendAudio v]).
      rewrite controlsOf_app, app_nil_r.
      destruct (length (audioCh w) <? audioCap)%nat;
        injection Hstep as <-; cbn [pending conn];
        (split; [rewrite <- app_assoc; exact Hcalls | exact Hconn]).
    + destruct (audioCh w) as [|x q]; [discriminate|].
      injection Hstep as <-. exists done. now split.
    + destruct (length (audioCh w) <? audioCap)%nat; [|discriminate].
      injection Hstep as <-. exists done. now split.
  - injection Hstep as <-. exists done. now split.
  - injection Hstep as <-. exists done. now split.
  - unfold loop in Hstep.
    destruct (running w); [|discriminate]. cbn [negb] in Hstep.
    destruct c.
    + destruct (ctxCancelled w); [|discriminate].
      injection Hstep as <-. exists done. now split.
    + destruct (caller w); try discriminate.
      destruct (pending w) as [|[v|v] rest] eqn:Hp; try discriminate.
      injection Hstep as <-. exists (done ++ [SendControl v]).
      cbn [writeMessage pending conn]. split.
      * rewrite <- app_assoc. exact Hcalls.
      * rewrite writesOf_app, controlsOf_app, map_app, Hconn. reflexivity.
    + destruct (audioCh w) as [|x q]; [discriminate|].
      injection Hstep as <-. exists done.
      cbn [writeMessage pending conn]. split; [exact Hcalls|].
      rewrite writesOf_app, Hconn. apply app_nil_r.
    + destruct (tickerC w); [|discriminate].
      injection Hstep as <-. exists done.
      cbn [writeMessage pending conn]. split; [exact Hcalls|].
      rewrite writesOf_app, Hconn. apply app_nil_r.
Qed.

Lemma acceptedInv_write (w : WSWriter) (c : selectCase) (ty : Z) (b : bytes)
    (ok : bool) :
  Forall (fun x => accepted x = true) (conn w) ->
  acceptedInv (writeMessage w c ty b ok).
Proof.
  intros Hall. unfold acceptedInv. cbn [writeMessage conn running].
  rewrite removelast_last. split; [exact Hall|].
  intros ->. apply Forall_app. split; [exact Hall|].
  constructor; [reflexivity|constructor].
Qed.

Lemma acceptedInv_step (m : move) (w w' : WSWriter) :
  acceptedInv w -> step m w = Some w' -> acceptedInv w'.
Proof.
  intros [Hinit Hrun] Hstep.
  destruct m as [| | |c ok]; cbn [step] in Hstep.
  - unfold callerStep in Hstep.
    destruct (caller w) as [|b|b].
    + destruct (pending w) as [|[v|v] rest]; try discriminate.
      destruct (length (audioCh w) <? audioCap)%nat;
        injection Hstep as <-; split; assumption.
    + destruct (audioCh w) as [|x q]; [discriminate|].
      injection Hstep as <-. split; assumption.
    + destruct (length (audioCh w) <? audioCap)%nat; [|discriminate].
      injection Hstep as <-. split; assumption.
  - injection Hstep as <-. split; assumption.
  - injection Hstep as <-. split; assumption.
  - unfold loop in Hstep.
    destruct (running w); [|discriminate]. cbn [negb] in Hstep.
    specialize (Hrun eq_refl).
    destruct c.
    + destruct (ctxCancelled w); [|discriminate].
      injection Hstep as <-. split; [exact Hinit|discriminate].
    + destruct (caller w); try discriminate.
      destruct (pending w) as [|[v|v] rest]; try discriminate.
      injection Hstep as <-. apply acceptedInv_write. exact Hrun.
    + destruct (audioCh w) as [|x q]; [discriminate|].
      injection Hstep as <-. apply acceptedInv_write. exact Hrun.
    + destruct (tickerC w); [|discriminate].
      injection Hstep as <-. apply acceptedInv_write. exact Hrun.
Qed.

(** An invariant of [step] holds along every schedule. *)
Lemma run_invariant (P : WSWriter -> Prop) :
  (forall m w w', P w -> step m w = Some w' -> P w') ->
  forall ms w w', P w -> run ms w = Some w' -> P w'.
Proof.
  intros Hstep. induction ms as [|m ms IH]; intros w w' HP Hrun.
  - injection Hrun as <-. exact HP.
  - cbn [run] in Hrun. destruct (step m w) as [w1|] eqn:H1; [|discriminate].
    eapply IH; [|exact Hrun]. eapply Hstep; eassumption.
Qed.

End SchedulerFacts.

Section SchedulerClaims.
Context {J : Json}.

Lemma audioInv_step (m : move) (w w' : WSWriter) :
  audioInv w -> step m w = Some w' -> audioInv w'.
Proof.
  unfold audioInv, audioCap. intros [Hlen Hat] Hstep.
  destruct m as [| | |c ok]; cbn [step] in Hstep.
  - unfold callerStep, audioCap in Hstep.
    destruct (caller w) as [|b|b].
    + destruct (pending w) as [|[v|v] rest]; try discriminate.
      destruct (Nat.ltb_spec (length (audioCh w)) 4);
        injection Hstep as <-; cbn [audioCh caller];
        rewrite ?length_app; cbn [length]; split; (lia || exact I).
    + destruct (audioCh w) as [|x q]; [discriminate|].
      injection Hstep as <-. cbn [audioCh caller length] in *. lia.
    + destruct (Nat.ltb_spec (length (audioCh w)) 4); [|discriminate].
      injection Hstep as <-. cbn [audioCh caller].
      rewrite length_app. cbn [length]. split; [lia|exact I].
  - injection Hstep as <-. split; assumption.
  - injection Hstep as <-. split; assumption.
  - unfold loop in Hstep.
    destruct (running w); [|discriminate]. cbn [negb] in Hstep.
    destruct c.
    + destruct (ctxCancelled w); [|discriminate].
      injection Hstep as <-. split; assumption.
    + destruct (caller w); try discriminate.
      destruct (pending w) as [|[v|v] rest]; try discriminate.
      injection Hstep as <-. cbn [writeMessage audioCh caller]. split; [lia|exact I].
    + destruct (audioCh w) as [|x q] eqn:Hq; [discriminate|].
      injection Hstep as <-. cbn [writeMessage audioCh caller length] in *.
      split; [lia|]. destruct (caller w); try exact I. lia.
    + destruct (tickerC w); [|discriminate].
      injection Hstep as <-. cbn [writeMessage audioCh caller]. split; assumption.
Qed.

Lemma NewWSWriter_inv (calls0 : list writerCall) :
  controlInv calls0 (NewWSWriter calls0)
  /\ acceptedInv (NewWSWriter calls0) /\ audioInv (NewWSWriter calls0).
Proof.
  split; [|split].
  - exists []. split; reflexivity.
  - split; [constructor|intros _; constructor].
  - split; [unfold audioCap; cbn; lia|exact I].
Qed.

(** C3: on one writer, whatever the schedule and the audio calls mixed in,
    the control messages the loop passed to [WriteMessage] are exactly those
    of the [SendControl] calls that returned, in the order of the calls;
    none of these writes failed except possibly the last one, after which
    the loop has returned. A caller at [SendControl] cannot go on by
    itself: its call returns only in the move in which the loop takes the
    message and writes it. *)
Theorem control_lane_keeps_every_message
    (calls0 : list writerCall) (ms : list move) (w : WSWriter) :
  run ms (NewWSWriter calls0) = Some w ->
  (exists done,
      calls0 = done ++ pending w
      /\ writesOf CaseControl (conn w) = map json_Marshal (controlsOf done))
  /\ Forall (fun x => accepted x = true) (removelast (conn w))
  /\ (running w = true -> Forall (fun x => accepted x = true) (conn w))
  /\ (forall v rest,
        caller w = Ready -> pending w = SendControl v :: rest ->
        step Caller w = None
        /\ forall m w', step m w = Some w' -> pending w' <> pending w ->
             exists ok,
               m = Loop CaseControl ok
               /\ pending w' = rest
               /\ conn w' = conn w ++ [{| from := CaseControl;
                                          msgType := TextMessage;
                                          payload := json_Marshal v;
                                          accepted := ok |}]).
Proof.
  intros Hrun.
  destruct (NewWSWriter_inv calls0) as (Hc & Ha & _).
  split; [|split; [|split]].
  - exact (run_invariant (controlInv calls0) (controlInv_step calls0) _ _ _ Hc Hrun).
  - exact (proj1 (run_invariant acceptedInv acceptedInv_step _ _ _ Ha Hrun)).
  - exact (proj2 (run_invariant acceptedInv acceptedInv_step _ _ _ Ha Hrun)).
  - intros v rest Hat Hp. split.
    + unfold step, callerStep. rewrite Hat, Hp. reflexivity.
    + intros m w' Hstep Hne.
      destruct m as [| | |c ok]; cbn [step] in Hstep.
      * unfold callerStep in Hstep. rewrite Hat, Hp in Hstep. discriminate.
      * injection Hstep as <-. now contradiction Hne.
      * injection Hstep as <-. now contradiction Hne.
      * unfold loop in Hstep.
        destruct (running w); [|discriminate]. cbn [negb] in Hstep.
        destruct c.
        -- destruct (ctxCancelled w); [|discriminate].
           injection Hstep as <-. now contradiction Hne.
        -- rewrite Hat, Hp in Hstep. injection Hstep as <-.
           exists ok. repeat split.
        -- destruct (audioCh w) as [|x q]; [discriminate|].
           injection Hstep as <-. now contradiction Hne.
        -- destruct (tickerC w); [|discriminate].
           injection Hstep as <-. now contradiction Hne.
Qed.

(** X23: along every schedule the audio buffer never holds more than its
    capacity of 4 messages, and the send of line 304 never waits: when the
    caller comes to it the buffer has room, the new message is appended at
    the end and [SendAudio] returns. *)
Theorem audio_lane_within_capacity
    (calls0 : list writerCall) (ms : list move) (w : WSWriter) :
  run ms (NewWSWriter calls0) = Some w ->
  (length (audioCh w) <= audioCap)%nat
  /\ forall b, caller w = AtResend b ->
       exists w',
         step Caller w = Some w'
         /\ audioCh w' = audioCh w ++ [b] /\ caller w' = Ready
         /\ (length (audioCh w') <= audioCap)%nat.
Proof.
  intros Hrun.
  destruct (NewWSWriter_inv calls0) as (_ & _ & Hi).
  pose proof (run_invariant audioInv audioInv_step _ _ _ Hi Hrun) as [Hlen Hroom].
  split; [exact Hlen|].
  intros b Hat. rewrite Hat in Hroom. cbn [step]. unfold callerStep. rewrite Hat.
  pose proof Hroom as Hlt. apply Nat.ltb_lt in Hlt. rewrite Hlt.
  eexists. split; [reflexivity|]. cbn [audioCh caller].
  repeat split. rewrite length_app. cbn [length]. lia.
Qed.

(** X24: a [SendAudio] called on a full buffer whose three channel
    operations run with no receive of the loop in between takes out one
    message, the oldest, then appends the new one: the buffer is full
    again, the socket is untouched and the caller goes on to its next
    call. *)
Theorem uninterrupted_send_audio_drops_oldest
    (w : WSWriter) (v : jvalue) (rest : list writerCall) :
  caller w = Ready -> pending w = SendAudio v :: rest ->
  length (audioCh w) = audioCap ->
  exists oldest q w',
    audioCh w = oldest :: q
    /\ run [Caller; Caller; Caller] w = Some w'
    /\ audioCh w' = q ++ [json_Marshal v]
    /\ audioCh w' = sendAudio (json_Marshal v) (audioCh w)
    /\ length (audioCh w') = audioCap
    /\ pending w' = rest /\ caller w' = Ready /\ conn w' = conn w.
Proof.
  intros Hat Hp Hlen.
  destruct (audioCh w) as [|oldest q] eqn:Hq; [discriminate|].
  unfold audioCap in Hlen. cbn [length] in Hlen.
  exists oldest, q. eexists. split; [reflexivity|].
  cbn [run step]. unfold callerStep at 1. rewrite Hat, Hp, Hq.
  replace (length (oldest :: q) <? audioCap)%nat with false
    by (symmetry; apply Nat.ltb_ge; unfold audioCap; cbn [length]; lia).
  unfold callerStep at 1. cbn [caller audioCh].
  unfold callerStep at 1. cbn [caller audioCh].
  replace (length q <? audioCap)%nat with true
    by (symmetry; apply Nat.ltb_lt; unfold audioCap; lia).
  split; [reflexivity|].
  cbn [pending caller audioCh conn].
  split; [reflexivity|].
  unfold sendAudio.
  replace (length (oldest :: q) <? audioCap)%nat with false
    by (symmetry; apply Nat.ltb_ge; unfold audioCap; cbn [length]; lia).
  cbn [tl]. rewrite length_app. cbn [length]. unfold audioCap.
  repeat split. lia.
Qed.

(** Every ready case of the [select] may be the one taken. *)
Lemma loop_takes_any_ready_case (c : selectCase) (ok : bool) (w : WSWriter) :
  running w = true -> selectReady c w = true ->
  exists w', loop c ok w = Some w'.
Proof.
  intros Hrun Hready. unfold loop. rewrite Hrun. cbn [negb].
  destruct c; cbn [selectReady] in Hready.
  - rewrite Hready. eexists; reflexivity.
  - destruct (caller w); try discriminate.
    destruct (pending w) as [|[v|v] rest]; try discriminate.
    eexists; reflexivity.
  - destruct (audioCh w); [discriminate|]. eexists; reflexivity.
  - rewrite Hready. eexists; reflexivity.
Qed.

(** C5, as the program behaves: the client sends a binary frame and then
    the text [cancel]. Once [session.update] is written and the frame is
    queued, the handler waits in [SendControl] while an audio message is
    buffered and a tick is due: all three cases of the [select] are ready,
    and the loop may write the audio message, or the ping, before the
    control message. *)
Theorem select_has_no_priority (data : bytes) :
  let cancelCall := SendControl (JObject cancelEvent) in
  let audio := json_Marshal (JObject (appendEvent data)) in
  exists w,
    run [Loop CaseControl true; Caller; Tick]
        (NewWSWriter (handlerCalls
           [ClientMessage BinaryMessage data;
            ClientMessage TextMessage (bytes_of_string "cancel")]))
    = Some w
    /\ running w = true
    /\ caller w = Ready /\ pending w = [cancelCall]
    /\ audioCh w = [audio]
    /\ selectReady CaseControl w = true
    /\ selectReady CaseAudio w = true
    /\ selectReady CaseTicker w = true
    /\ (exists w', loop CaseAudio true w = Some w'
          /\ conn w' = conn w ++ [{| from := CaseAudio; msgType := TextMessage;
                                     payload := audio; accepted := true |}]
          /\ pending w' = [cancelCall])
    /\ (exists w', loop CaseTicker true w = Some w'
          /\ conn w' = conn w ++ [{| from := CaseTicker; msgType := PingMessage;
                                     payload := []; accepted := true |}]
          /\ pending w' = [cancelCall] /\ audioCh w' = [audio]).
Proof.
  cbv zeta. eexists. split; [reflexivity|].
  repeat split; eexists; repeat split.
Qed.

End SchedulerClaims.

(** ** The framed format: a frame parses back *)

Section FramerFacts.
Import Framer.
Local Open Scope N_scope.

Lemma to_N_byte_of_N (n : N) : Byte.to_N (byte_of_N n) = n mod 256.
Proof.
  unfold byte_of_N. rewrite land_255.
  destruct (Byte.of_N (n mod 256)) as [b|] eqn:Hb.
  - now apply Byte.to_of_N.
  - apply Byte.of_N_None_iff in Hb.
    pose proof (N.mod_upper_bound n 256 ltac:(lia)). lia.
Qed.

Lemma fromLE_shifted (g : N) (n k : nat) :
  fromLE (map (fun i => byte_of_N (N.shiftr g (8 * N.of_nat i))) (seq k n))
  = (g / 2 ^ (8 * N.of_nat k)) mod 2 ^ (8 * N.of_nat n).
Proof.
  revert k. induction n as [|n IH]; intros k.
  - cbn [seq map fromLE]. change (2 ^ (8 * N.of_nat 0)) with 1.
    now rewrite N.mod_1_r.
  - cbn [seq map fromLE]. rewrite IH, to_N_byte_of_N, shiftr_div.
    replace (8 * N.of_nat (S k)) with (8 * N.of_nat k + 8) by lia.
    replace (8 * N.of_nat (S n)) with (8 + 8 * N.of_nat n) by lia.
    rewrite !N.pow_add_r. change (2 ^ 8) with 256.
    rewrite <- N.Div0.div_div.
    rewrite (N.Div0.mod_mul_r _ 256). reflexivity.
Qed.

Lemma fromLE_le64 (g : N) : g < 2 ^ 64 -> fromLE (le64 g) = g.
Proof.
  intros Hg. unfold le64. rewrite fromLE_shifted.
  change (2 ^ (8 * N.of_nat 0)) with 1. rewrite N.div_1_r.
  change (8 * N.of_nat 8) with 64. now rewrite N.mod_small.
Qed.

(** Round trip of the frame: while the generation fits 64 bits, a client
    reads back the tag, the generation and the payload. *)
Lemma parseFrame_currentFrame (g : N) (pcm : bytes) :
  g < 2 ^ 64 ->
  parseFrame (currentFrame false g pcm) = Some (tagAudio, g, pcm).
Proof.
  intros Hg. unfold currentFrame, parseFrame.
  assert (Hlen : length (le64 g) = 8%nat)
    by (unfold le64; now rewrite length_map, length_seq).
  assert (Hfirst : firstn 8 (le64 g ++ pcm) = le64 g).
  { rewrite <- Hlen. rewrite firstn_app, Nat.sub_diag, firstn_all.
    cbn [firstn]. apply app_nil_r. }
  assert (Hskip : skipn 8 (le64 g ++ pcm) = pcm).
  { rewrite <- Hlen. rewrite skipn_app, Nat.sub_diag, skipn_all.
    reflexivity. }
  rewrite Hfirst, Hskip, length_app, Hlen, fromLE_le64 by exact Hg.
  reflexivity.
Qed.

End FramerFacts.

(** ** The theorems at concrete sessions *)

(** C1 fails as stated: a session opened with [raw=0] (framed mode) receives
    the delta [AAAA], three zero bytes of PCM; the binary message written is
    not the frame of tag, generation and payload, whatever the generation. *)
Lemma framed_session_counterexample :
  Framer.rawMode Sample.framedRequest = Some false
  /\ Base64.DecodeString "AAAA" = Some [x00; x00; x00]
  /\ ~ exists g out,
        receiverStep (J:=Sample.json) (newSession Sample.framedRequest)
          (UpMessage (Sample.deltaMsg "AAAA"))
        = (Continue,
           writeClient (newSession Sample.framedRequest) BinaryMessage
             (Framer.currentFrame false g [x00; x00; x00]),
           out).
Proof.
  split; [reflexivity|]. split; [reflexivity|].
  intros (g & out & H).
  change (receiverStep (J:=Sample.json) (newSession Sample.framedRequest)
            (UpMessage (Sample.deltaMsg "AAAA")))
    with (Continue,
          writeClient (newSession Sample.framedRequest) BinaryMessage [x00; x00; x00],
          [LogSendingPCM 3]) in H.
  apply (f_equal (fun r => clientConn (snd (fst r)))) in H.
  cbn [fst snd writeClient clientConn newSession app] in H.
  discriminate H.
Qed.

(** The same session, as the program relays it. *)
Lemma audio_is_written_bare_witness :
  receiverStep (J:=Sample.json) (newSession Sample.framedRequest)
    (UpMessage (Sample.deltaMsg "AAAA"))
  = (Continue,
     writeClient (newSession Sample.framedRequest) BinaryMessage [x00; x00; x00],
     [LogSendingPCM 3])
  /\ forall g, [x00; x00; x00] <> Framer.currentFrame false g [x00; x00; x00].
Proof.
  exact (audio_is_written_bare (J:=Sample.json)
           (newSession Sample.framedRequest) (Sample.deltaMsg "AAAA")
           (Sample.deltaEvent "AAAA") [x00; x00; x00]
           eq_refl eq_refl eq_refl).
Defined.

(** C2 fails as stated: a session opened with [raw=0] receives two audio
    deltas; the client, reading each binary message by the frame layout,
    observes the generation 5 and then the generation 3. *)
Lemma wire_generations_counterexample :
  Framer.rawMode Sample.framedRequest = Some false
  /\ clientConn (fst (receiverLoop (J:=Sample.json)
                        (newSession Sample.framedRequest) Sample.twoDeltas))
     = [(BinaryMessage, Sample.pcmFive); (BinaryMessage, Sample.pcmThree)]
  /\ Framer.wireGenerations
       (clientConn (fst (receiverLoop (J:=Sample.json)
                           (newSession Sample.framedRequest) Sample.twoDeltas)))
     = [5%N; 3%N]
  /\ ~ Framer.nondecreasing
         (Framer.wireGenerations
            (clientConn (fst (receiverLoop (J:=Sample.json)
                                (newSession Sample.framedRequest)
                                Sample.twoDeltas)))).
Proof.
  assert (Hconn : clientConn (fst (receiverLoop (J:=Sample.json)
                          (newSession Sample.framedRequest) Sample.twoDeltas))
                  = [(BinaryMessage, Sample.pcmFive);
                     (BinaryMessage, Sample.pcmThree)])
    by (vm_compute; reflexivity).
  split; [reflexivity|]. split; [exact Hconn|].
  rewrite Hconn. split; [reflexivity|].
  cbn. intros [Hle _]. now apply Hle.
Qed.

(** The delta [AAA*] is not base64: it is dropped, and the delta that follows
    it is relayed as if it had not been there. *)
Lemma malformed_unit_is_dropped_witness :
  malformed (J:=Sample.json) (Sample.deltaMsg "AAA*")
  /\ exists line,
      (forall s,
          receiverStep (J:=Sample.json) s (UpMessage (Sample.deltaMsg "AAA*"))
          = (Continue, s, [line]))
      /\ (forall s post,
            receiverLoop (J:=Sample.json) s
              (UpMessage (Sample.deltaMsg "AAA*") :: post)
            = (fst (receiverLoop (J:=Sample.json) s post),
               line :: snd (receiverLoop (J:=Sample.json) s post)))
      /\ (forall s pre post,
            fst (receiverLoop (J:=Sample.json) s
                   (pre ++ UpMessage (Sample.deltaMsg "AAA*") :: post))
            = fst (receiverLoop (J:=Sample.json) s (pre ++ post))).
Proof.
  assert (Hbad : malformed (J:=Sample.json) (Sample.deltaMsg "AAA*")).
  { right. exists (Sample.deltaEvent "AAA*"). repeat split. }
  split; [exact Hbad|].
  exact (malformed_unit_is_dropped (J:=Sample.json) (Sample.deltaMsg "AAA*") Hbad).
Defined.

Lemma error_event_is_forwarded_witness :
  exists s' out,
    receiverStep (J:=Sample.json) (newSession Sample.framedRequest)
      (UpMessage (Sample.marshal (JObject Sample.errorEvent)))
    = (Continue, s', out)
    /\ clientConn s'
       = [] ++ [(TextMessage, Sample.marshal (JObject Sample.errorEvent))]
    /\ ctxDone s' = false
    /\ request s' = Sample.framedRequest.
Proof.
  exact (error_event_is_forwarded (J:=Sample.json)
           (newSession Sample.framedRequest)
           (Sample.marshal (JObject Sample.errorEvent)) Sample.errorEvent
           eq_refl eq_refl).
Defined.

Lemma other_events_change_nothing_witness :
  exists out,
    receiverStep (J:=Sample.json) (newSession Sample.framedRequest)
      (UpMessage (Sample.marshal (JObject Sample.speechStartedEvent)))
    = (Continue, newSession Sample.framedRequest, out).
Proof.
  apply (other_events_change_nothing (J:=Sample.json)
           (newSession Sample.framedRequest)
           (Sample.marshal (JObject Sample.speechStartedEvent))
           Sample.speechStartedEvent eq_refl); discriminate.
Defined.

Lemma control_lane_keeps_every_message_witness :
  run (J:=Sample.json) Sample.schedule (NewWSWriter Sample.calls)
  = Some Sample.final
  /\ exists done,
      Sample.calls = done ++ pending Sample.final
      /\ writesOf CaseControl (conn Sample.final)
         = map Sample.marshal (controlsOf done).
Proof.
  assert (Hrun : run (J:=Sample.json) Sample.schedule (NewWSWriter Sample.calls)
                 = Some Sample.final) by (vm_compute; reflexivity).
  split; [exact Hrun|].
  exact (proj1 (control_lane_keeps_every_message (J:=Sample.json) _ _ _ Hrun)).
Defined.

Lemma audio_lane_within_capacity_witness :
  run (J:=Sample.json) Fixture.raceSchedule (NewWSWriter Fixture.fiveFrames)
  = Some Fixture.resending
  /\ (length (audioCh Fixture.resending) <= audioCap)%nat
  /\ forall b, caller Fixture.resending = AtResend b ->
       exists w',
         step (J:=Sample.json) Caller Fixture.resending = Some w'
         /\ audioCh w' = audioCh Fixture.resending ++ [b] /\ caller w' = Ready
         /\ (length (audioCh w') <= audioCap)%nat.
Proof.
  assert (Hrun : run (J:=Sample.json) Fixture.raceSchedule
                   (NewWSWriter Fixture.fiveFrames)
                 = Some Fixture.resending) by (vm_compute; reflexivity).
  split; [exact Hrun|].
  exact (audio_lane_within_capacity (J:=Sample.json) _ _ _ Hrun).
Defined.

Lemma uninterrupted_send_audio_drops_oldest_witness :
  length (audioCh Sample.full) = audioCap
  /\ exists oldest q w',
      audioCh Sample.full = oldest :: q
      /\ run (J:=Sample.json) [Caller; Caller; Caller] Sample.full = Some w'
      /\ audioCh w' = q ++ [Sample.marshal (JString "e")]
      /\ audioCh w' = sendAudio (Sample.marshal (JString "e")) (audioCh Sample.full)
      /\ length (audioCh w') = audioCap
      /\ pending w' = [] /\ caller w' = Ready /\ conn w' = conn Sample.full.
Proof.
  split; [reflexivity|].
  exact (uninterrupted_send_audio_drops_oldest (J:=Sample.json)
           Sample.full (JString "e") [] eq_refl eq_refl eq_refl).
Defined.

(** * Further properties *)

(** ** [subseq] *)

Section SubseqFacts.
Context {A : Type}.

Lemma subseq_refl (xs : list A) : subseq xs xs.
Proof. induction xs; constructor; assumption. Qed.

Lemma subseq_app (xs ys xs' ys' : list A) :
  subseq xs ys -> subseq xs' ys' -> subseq (xs ++ xs') (ys ++ ys').
Proof.
  intros H H'. induction H as [ys|x xs ys _ IH|y xs ys _ IH]; cbn [app].
  - induction ys as [|y ys IHys]; [exact H'|]. cbn [app]. now constructor.
  - now constructor.
  - now constructor.
Qed.

Lemma subseq_snoc_right (xs ys : list A) (y : A) :
  subseq xs ys -> subseq xs (ys ++ [y]).
Proof.
  intros H. rewrite <- (app_nil_r xs). apply subseq_app; [exact H|constructor].
Qed.

Lemma subseq_trans (xs ys zs : list A) :
  subseq xs ys -> subseq ys zs -> subseq xs zs.
Proof.
  intros Hxy Hyz. revert xs Hxy.
  induction Hyz as [zs|y ys zs _ IH|z ys zs _ IH]; intros xs Hxy.
  - inversion Hxy; subst. constructor.
  - inversion Hxy; subst.
    + constructor.
    + constructor. now apply IH.
    + apply subseq_drop. now apply IH.
  - apply subseq_drop. now apply IH.
Qed.

Lemma subseq_remove (xs ys zs : list A) (x : A) :
  subseq (xs ++ x :: ys) zs -> subseq (xs ++ ys) zs.
Proof.
  apply subseq_trans. apply subseq_app; [apply subseq_refl|].
  apply subseq_drop, subseq_refl.
Qed.

Lemma subseq_length (xs ys : list A) : subseq xs ys -> (length xs <= length ys)%nat.
Proof. induction 1; cbn [length]; lia. Qed.

Lemma subseq_In (xs ys : list A) (x : A) : subseq xs ys -> In x xs -> In x ys.
Proof.
  induction 1 as [ys|y xs ys _ IH|y xs ys _ IH]; cbn [In]; intros Hin.
  - contradiction.
  - destruct Hin as [->|Hin]; [now left|right; now apply IH].
  - right. now apply IH.
Qed.

End SubseqFacts.

(** ** [WSWriter]: what a move can be *)

Section SchedulerMoves.
Context {J : Json}.

(** The ten shapes of a move. *)
Lemma step_cases (m : move) (w w' : WSWriter) :
  step m w = Some w' ->
  (exists v rest,
      m = Caller /\ caller w = Ready /\ pending w = SendAudio v :: rest
      /\ (length (audioCh w) < audioCap)%nat
      /\ w' = {| pending := rest; caller := Ready;
                 audioCh := audioCh w ++ [json_Marshal v]; tickerC := tickerC w;
                 ctxCancelled := ctxCancelled w; running := running w;
                 conn := conn w |})
  \/ (exists v rest,
        m = Caller /\ caller w = Ready /\ pending w = SendAudio v :: rest
        /\ (audioCap <= length (audioCh w))%nat
        /\ w' = {| pending := rest; caller := AtEvict (json_Marshal v);
                   audioCh := audioCh w; tickerC := tickerC w;
                   ctxCancelled := ctxCancelled w; running := running w;
                   conn := conn w |})
  \/ (exists b oldest q,
        m = Caller /\ caller w = AtEvict b /\ audioCh w = oldest :: q
        /\ w' = {| pending := pending w; caller := AtResend b;
                   audioCh := q; tickerC := tickerC w;
                   ctxCancelled := ctxCancelled w; running := running w;
                   conn := conn w |})
  \/ (exists b,
        m = Caller /\ caller w = AtResend b
        /\ (length (audioCh w) < audioCap)%nat
        /\ w' = {| pending := pending w; caller := Ready;
                   audioCh := audioCh w ++ [b]; tickerC := tickerC w;
                   ctxCancelled := ctxCancelled w; running := running w;
                   conn := conn w |})
  \/ (m = Tick
      /\ w' = {| pending := pending w; caller := caller w;
                 audioCh := audioCh w; tickerC := true;
                 ctxCancelled := ctxCancelled w; running := running w;
                 conn := conn w |})
  \/ (m = Cancel
      /\ w' = {| pending := pending w; caller := caller w;
                 audioCh := audioCh w; tickerC := tickerC w;
                 ctxCancelled := true; running := running w;
                 conn := conn w |})
  \/ (exists ok,
        m = Loop CaseDone ok /\ running w = true /\ ctxCancelled w = true
        /\ w' = {| pending := pending w; caller := caller w;
                   audioCh := audioCh w; tickerC := tickerC w;
                   ctxCancelled := true; running := false; conn := conn w |})
  \/ (exists ok v rest,
        m = Loop CaseControl ok /\ running w = true /\ caller w = Ready
        /\ pending w = SendControl v :: rest
        /\ w' = {| pending := rest; caller := Ready; audioCh := audioCh w;
                   tickerC := tickerC w; ctxCancelled := ctxCancelled w;
                   running := ok;
                   conn := conn w ++ [{| from := CaseControl;
                                         msgType := TextMessage;
                                         payload := json_Marshal v;
                                         accepted := ok |}] |})
  \/ (exists ok msg q,
        m = Loop CaseAudio ok /\ running w = true /\ audioCh w = msg :: q
        /\ w' = {| pending := pending w; caller := caller w; audioCh := q;
                   tickerC := tickerC w; ctxCancelled := ctxCancelled w;
                   running := ok;
                   conn := conn w ++ [{| from := CaseAudio;
                                         msgType := TextMessage;
                                         payload := msg;
                                         accepted := ok |}] |})
  \/ (exists ok,
        m = Loop CaseTicker ok /\ running w = true /\ tickerC w = true
        /\ w' = {| pending := pending w; caller := caller w;
                   audioCh := audioCh w; tickerC := false;
                   ctxCancelled := ctxCancelled w; running := ok;
                   conn := conn w ++ [{| from := CaseTicker;
                                         msgType := PingMessage;
                                         payload := [];
                                         accepted := ok |}] |}).
Proof.
  intros Hstep.
  destruct m as [| | |c ok]; cbn [step] in Hstep.
  - unfold callerStep in Hstep.
    destruct (caller w) as [|b|b] eqn:Hat.
    + destruct (pending w) as [|[v|v] rest] eqn:Hp; try discriminate.
      destruct (Nat.ltb_spec (length (audioCh w)) audioCap);
        injection Hstep as <-.
      * left. exists v, rest. repeat split. assumption.
      * right; left. exists v, rest. repeat split. assumption.
    + destruct (audioCh w) as [|oldest q] eqn:Hq; [discriminate|].
      injection Hstep as <-.
      right; right; left. exists b, oldest, q. repeat split.
    + destruct (Nat.ltb_spec (length (audioCh w)) audioCap); [|discriminate].
      injection Hstep as <-.
      right; right; right; left. exists b. repeat split. assumption.
  - injection Hstep as <-. do 4 right. left. split; reflexivity.
  - injection Hstep as <-. do 5 right. left. split; reflexivity.
  - unfold loop in Hstep.
    destruct (running w) eqn:Hrun; [|discriminate]. cbn [negb] in Hstep.
    destruct c.
    + destruct (ctxCancelled w) eqn:Hc; [|discriminate].
      injection Hstep as <-. do 6 right. left. exists ok. repeat split.
    + destruct (caller w) eqn:Hat; try discriminate.
      destruct (pending w) as [|[v|v] rest] eqn:Hp; try discriminate.
      injection Hstep as <-. do 7 right. left. exists ok, v, rest.
      repeat split.
    + destruct (audioCh w) as [|msg q] eqn:Hq; [discriminate|].
      injection Hstep as <-. do 8 right. left. exists ok, msg, q.
      repeat split.
    + destruct (tickerC w) eqn:Ht; [|discriminate].
      injection Hstep as <-. do 9 right. exists ok. repeat split.
Qed.

End SchedulerMoves.

(** Case analysis on a move, with the new state written out. *)
Ltac step_inv H :=
  let v := fresh "v" in let rest := fresh "rest" in
  let b := fresh "b" in let oldest := fresh "oldest" in
  let q := fresh "q" in let ok := fresh "ok" in let msg := fresh "msg" in
  let Hm := fresh "Hm" in let Hat := fresh "Hat" in let Hp := fresh "Hp" in
  let Hlen := fresh "Hlen" in let Hq := fresh "Hq" in
  let Hrun := fresh "Hrun" in let Hc := fresh "Hc" in let Ht := fresh "Ht" in
  let Hw := fresh "Hw" in
  destruct (step_cases _ _ _ H) as
    [(v & rest & Hm & Hat & Hp & Hlen & Hw)
    |[(v & rest & Hm & Hat & Hp & Hlen & Hw)
    |[(b & oldest & q & Hm & Hat & Hq & Hw)
    |[(b & Hm & Hat & Hlen & Hw)
    |[(Hm & Hw)
    |[(Hm & Hw)
    |[(ok & Hm & Hrun & Hc & Hw)
    |[(ok & v & rest & Hm & Hrun & Hat & Hp & Hw)
    |[(ok & msg & q & Hm & Hrun & Hq & Hw)
    |(ok & Hm & Hrun & Ht & Hw)]]]]]]]]];
  rewrite Hw; clear Hw;
  cbn [pending caller audioCh tickerC ctxCancelled running conn].

(** ** [WSWriter]: the audio lane keeps the order of submission *)

Section SchedulerAudioOrder.
Context {J : Json}.

Lemma audiosOf_app (xs ys : list writerCall) :
  audiosOf (xs ++ ys) = audiosOf xs ++ audiosOf ys.
Proof.
  induction xs as [|[v|v] xs IH]; cbn [app audiosOf]; rewrite ?IH; reflexivity.
Qed.

Lemma writesOf_snoc (c : selectCase) (ws : list wsWrite) (x : wsWrite) :
  writesOf c (ws ++ [x])
  = writesOf c ws ++ writesOf c [x].
Proof. apply writesOf_app. Qed.

Lemma audioOrderInv_step (calls0 : list writerCall) (m : move) (w w' : WSWriter) :
  audioOrderInv calls0 w -> step m w = Some w' -> audioOrderInv calls0 w'.
Proof.
  intros (done & Hcalls & Hinv) Hstep. unfold audioOrderInv.
  step_inv Hstep.
  - rewrite Hat in Hinv. exists (done ++ [SendAudio v]).
    rewrite Hcalls, Hp, <- app_assoc. split; [reflexivity|].
    rewrite audiosOf_app, map_app, app_assoc. cbn [audiosOf map].
    apply subseq_app; [exact Hinv|apply subseq_refl].
  - rewrite Hat in Hinv. exists (done ++ [SendAudio v]).
    rewrite Hcalls, Hp, <- app_assoc. split; [reflexivity|].
    exists (map json_Marshal (audiosOf done)).
    rewrite audiosOf_app, map_app. split; [reflexivity|exact Hinv].
  - rewrite Hat in Hinv. destruct Hinv as (before & Hsub & Hinv).
    exists done. split; [exact Hcalls|].
    exists before. split; [exact Hsub|].
    rewrite Hq in Hinv. eapply subseq_remove. exact Hinv.
  - rewrite Hat in Hinv. destruct Hinv as (before & Hsub & Hinv).
    exists done. split; [exact Hcalls|].
    rewrite Hsub, app_assoc. apply subseq_app; [exact Hinv|apply subseq_refl].
  - exists done. split; assumption.
  - exists done. split; assumption.
  - exists done. split; assumption.
  - rewrite Hat in Hinv. exists (done ++ [SendControl v]).
    rewrite Hcalls, Hp, <- app_assoc. split; [reflexivity|].
    rewrite audiosOf_app, writesOf_snoc. cbn [audiosOf writesOf filter from map].
    rewrite !app_nil_r. exact Hinv.
  - exists done. split; [exact Hcalls|].
    rewrite writesOf_snoc. cbn [writesOf filter from map payload].
    rewrite <- app_assoc. cbn [app]. rewrite Hq in Hinv. exact Hinv.
  - exists done. split; [exact Hcalls|].
    rewrite writesOf_snoc. cbn [writesOf filter from map].
    rewrite app_nil_r. exact Hinv.
Qed.

Lemma audioOrderInv_init (calls0 : list writerCall) :
  audioOrderInv calls0 (NewWSWriter calls0).
Proof. exists []. split; [reflexivity|]. cbn. constructor. Qed.

(** X1: the audio lane never reorders, repeats or invents a message: under
    every schedule, the audio payloads the loop handed to [WriteMessage],
    followed by those still buffered, are a subsequence of the payloads
    submitted by the [SendAudio] calls made so far. *)
Theorem audio_lane_keeps_order
    (calls0 : list writerCall) (ms : list move) (w : WSWriter) :
  run ms (NewWSWriter calls0) = Some w ->
  exists done,
    calls0 = done ++ pending w
    /\ subseq (writesOf CaseAudio (conn w) ++ audioCh w)
              (map json_Marshal (audiosOf done)).
Proof.
  intros Hrun.
  destruct (run_invariant (audioOrderInv calls0) (audioOrderInv_step calls0)
              _ _ _ (audioOrderInv_init calls0) Hrun) as (done & Hcalls & Hinv).
  exists done. split; [exact Hcalls|].
  destruct (caller w); [exact Hinv| |];
    destruct Hinv as (before & -> & Hinv); now apply subseq_snoc_right.
Qed.

End SchedulerAudioOrder.

(** ** [WSWriter]: no audio is lost while there is room *)

Section SchedulerRoom.
Context {J : Json}.

Lemma audioRoomInv_step (calls0 : list writerCall) (m : move) (w w' : WSWriter) :
  audioRoomInv calls0 w -> step m w = Some w' -> audioRoomInv calls0 w'.
Proof.
  unfold audioRoomInv, audioCap.
  intros (Hready & Hroom & done & Hcalls & Hall) Hstep.
  step_inv Hstep; try (rewrite Hready in Hat; discriminate).
  - split; [reflexivity|]. rewrite Hp in Hroom. cbn [audiosOf length] in Hroom.
    rewrite length_app. cbn [length]. split; [lia|].
    exists (done ++ [SendAudio v]).
    rewrite Hcalls, Hp, <- app_assoc. split; [reflexivity|].
    rewrite audiosOf_app, map_app, app_assoc, Hall. reflexivity.
  - exfalso. rewrite Hp in Hroom. cbn [audiosOf length] in Hroom.
    unfold audioCap in Hlen. lia.
  - repeat split; try assumption. exists done. split; assumption.
  - repeat split; try assumption. exists done. split; assumption.
  - repeat split; try assumption. exists done. split; assumption.
  - split; [reflexivity|]. rewrite Hp in Hroom. cbn [audiosOf] in Hroom.
    split; [exact Hroom|].
    exists (done ++ [SendControl v]).
    rewrite Hcalls, Hp, <- app_assoc. split; [reflexivity|].
    rewrite audiosOf_app, writesOf_snoc. cbn [audiosOf writesOf filter from map].
    rewrite !app_nil_r. exact Hall.
  - split; [exact Hready|]. rewrite Hq in Hroom. cbn [length] in Hroom.
    split; [lia|]. exists done. split; [exact Hcalls|].
    rewrite writesOf_snoc. cbn [writesOf filter from map payload].
    rewrite <- app_assoc. cbn [app]. rewrite <- Hq. exact Hall.
  - repeat split; try assumption. exists done. split; [exact Hcalls|].
    rewrite writesOf_snoc. cbn [writesOf filter from map].
    rewrite app_nil_r. exact Hall.
Qed.

(** X2: a caller that makes no more [SendAudio] calls than the buffer has
    slots loses nothing: under every schedule the caller never enters the
    [default] branch, and the audio payloads written followed by those
    buffered are exactly the payloads submitted so far, in order. *)
Theorem audio_lane_lossless_with_room
    (calls0 : list writerCall) (ms : list move) (w : WSWriter) :
  (length (audiosOf calls0) <= audioCap)%nat ->
  run ms (NewWSWriter calls0) = Some w ->
  caller w = Ready
  /\ exists done,
      calls0 = done ++ pending w
      /\ writesOf CaseAudio (conn w) ++ audioCh w
         = map json_Marshal (audiosOf done).
Proof.
  intros Hroom Hrun.
  assert (Hinit : audioRoomInv calls0 (NewWSWriter calls0)).
  { split; [reflexivity|]. split; [exact Hroom|].
    exists []. split; reflexivity. }
  destruct (run_invariant (audioRoomInv calls0) (audioRoomInv_step calls0)
              _ _ _ Hinit Hrun) as (Hready & _ & Hdone).
  split; assumption.
Qed.

End SchedulerRoom.

(** ** [WSWriter]: after the loop has returned *)

Section SchedulerStopped.
Context {J : Json}.

Lemma stopped_step (w0 : WSWriter) (m : move) (w w' : WSWriter) :
  (running w = false /\ conn w = conn w0
   /\ controlsOf (pending w) = controlsOf (pending w0)) ->
  step m w = Some w' ->
  running w' = false /\ conn w' = conn w0
  /\ controlsOf (pending w') = controlsOf (pending w0).
Proof.
  intros (Hstop & Hconn & Hctl) Hstep.
  step_inv Hstep; try congruence; try (repeat split; assumption).
  - rewrite Hp in Hctl. cbn [controlsOf] in Hctl. repeat split; assumption.
  - rewrite Hp in Hctl. cbn [controlsOf] in Hctl. repeat split; assumption.
Qed.

Lemma stopped_run (w : WSWriter) (ms : list move) (w' : WSWriter) :
  running w = false ->
  run ms w = Some w' ->
  running w' = false /\ conn w' = conn w
  /\ controlsOf (pending w') = controlsOf (pending w).
Proof.
  intros Hstop Hrun.
  apply (run_invariant
           (fun x => running x = false /\ conn x = conn w
                     /\ controlsOf (pending x) = controlsOf (pending w))
           (stopped_step w) ms w w'); [|exact Hrun].
  repeat split. exact Hstop.
Qed.

(** X3: once the loop has returned (a write failed, or it took the
    cancelled context), the writer is dead for good: under every later
    schedule nothing more is handed to [WriteMessage], the loop does not
    restart, and no [SendControl] call returns any more (the control calls
    still to make stay the same), while [SendAudio] calls may go on. *)
Theorem stopped_loop_writes_nothing (w : WSWriter) (ms : list move) (w' : WSWriter) :
  running w = false ->
  run ms w = Some w' ->
  running w' = false /\ conn w' = conn w
  /\ controlsOf (pending w') = controlsOf (pending w).
Proof. apply stopped_run. Qed.

End SchedulerStopped.

(** ** [WSWriter]: heartbeats and the shape of the writes *)

Section SchedulerShape.
Context {J : Json}.

Lemma pingCredit_step (m : move) (w w' : WSWriter) :
  step m w = Some w' ->
  (pingCredit w' <= pingCredit w + ticks [m])%nat.
Proof.
  intros Hstep. unfold pingCredit.
  step_inv Hstep; subst m; cbn [ticks];
    rewrite ?writesOf_snoc; cbn [writesOf filter from map length];
    rewrite ?length_app; cbn [length];
    try rewrite Ht; try destruct (tickerC w); lia.
Qed.

Lemma ticks_cons (m : move) (ms : list move) :
  ticks (m :: ms) = (ticks [m] + ticks ms)%nat.
Proof. destruct m; reflexivity. Qed.

Lemma pingCredit_run (ms : list move) (w w' : WSWriter) :
  run ms w = Some w' ->
  (pingCredit w' <= pingCredit w + ticks ms)%nat.
Proof.
  revert w. induction ms as [|m ms IH]; intros w Hrun.
  - injection Hrun as <-. cbn [ticks]. lia.
  - cbn [run] in Hrun. destruct (step m w) as [w1|] eqn:H1; [|discriminate].
    pose proof (pingCredit_step m w w1 H1). pose proof (IH w1 Hrun).
    rewrite ticks_cons. lia.
Qed.

(** X4: the loop sends a heartbeat only for a tick: under every schedule
    the number of pings handed to [WriteMessage] is at most the number of
    times the ticker fired; ticks that fire while one is already waiting
    are lost. *)
Theorem pings_follow_ticks
    (calls0 : list writerCall) (ms : list move) (w : WSWriter) :
  run ms (NewWSWriter calls0) = Some w ->
  (length (writesOf CaseTicker (conn w)) <= ticks ms)%nat.
Proof.
  intros Hrun. pose proof (pingCredit_run ms _ _ Hrun) as H.
  unfold pingCredit in H. cbn [NewWSWriter conn tickerC writesOf filter map length] in H.
  lia.
Qed.

Lemma wellFormedInv_step (calls0 : list writerCall) (m : move) (w w' : WSWriter) :
  wellFormedInv calls0 w -> step m w = Some w' -> wellFormedInv calls0 w'.
Proof.
  unfold wellFormedInv.
  intros ((done & Hcalls) & Hconn & Hbuf & Hheld) Hstep.
  assert (Hin : forall c rest, pending w = c :: rest ->
                  In (json_Marshal (callValue c))
                     (map (fun c => json_Marshal (callValue c)) calls0)).
  { intros c rest Hp.
    apply (in_map (fun c => json_Marshal (callValue c))). rewrite Hcalls, Hp.
    apply in_or_app. right. now left. }
  step_inv Hstep.
  - split; [exists (done ++ [SendAudio v]);
            rewrite Hcalls, Hp, <- app_assoc; reflexivity|].
    split; [exact Hconn|]. split; [|exact I].
    apply Forall_app. split; [exact Hbuf|].
    constructor; [exact (Hin _ _ Hp)|constructor].
  - split; [exists (done ++ [SendAudio v]);
            rewrite Hcalls, Hp, <- app_assoc; reflexivity|].
    split; [exact Hconn|]. split; [exact Hbuf|]. exact (Hin _ _ Hp).
  - rewrite Hat in Hheld. rewrite Hq in Hbuf.
    apply Forall_cons_iff in Hbuf. destruct Hbuf as [_ Htl].
    split; [exists done; exact Hcalls|]. repeat split; assumption.
  - rewrite Hat in Hheld.
    split; [exists done; exact Hcalls|]. split; [exact Hconn|].
    split; [|exact I]. apply Forall_app. split; [exact Hbuf|].
    constructor; [exact Hheld|constructor].
  - split; [exists done; exact Hcalls|]. repeat split; assumption.
  - split; [exists done; exact Hcalls|]. repeat split; assumption.
  - split; [exists done; exact Hcalls|]. repeat split; assumption.
  - split; [exists (done ++ [SendControl v]);
            rewrite Hcalls, Hp, <- app_assoc; reflexivity|].
    split; [|split; [exact Hbuf|exact I]].
    apply Forall_app. split; [exact Hconn|].
    constructor; [|constructor].
    split; [reflexivity|]. exact (Hin _ _ Hp).
  - rewrite Hq in Hbuf.
    apply Forall_cons_iff in Hbuf. destruct Hbuf as [Hhd Htl].
    split; [exists done; exact Hcalls|].
    split; [|split; assumption].
    apply Forall_app. split; [exact Hconn|].
    constructor; [|constructor]. split; [reflexivity|assumption].
  - split; [exists done; exact Hcalls|].
    split; [|split; assumption].
    apply Forall_app. split; [exact Hconn|].
    constructor; [|constructor]. split; reflexivity.
Qed.

(** X5: the loop writes only what it was given: under every schedule each
    message handed to [WriteMessage] is either a text message (never a
    binary one) whose payload is the marshalled value of one of the calls
    made on the writer, or a ping with no payload. *)
Theorem writes_are_text_or_ping
    (calls0 : list writerCall) (ms : list move) (w : WSWriter) :
  run ms (NewWSWriter calls0) = Some w ->
  Forall (fun x =>
            (msgType x = TextMessage
             /\ exists c, In c calls0 /\ payload x = json_Marshal (callValue c))
            \/ (msgType x = PingMessage /\ payload x = []))
         (conn w).
Proof.
  intros Hrun.
  assert (Hinit : wellFormedInv calls0 (NewWSWriter calls0)).
  { split; [exists []; reflexivity|]. repeat split; constructor. }
  destruct (run_invariant (wellFormedInv calls0) (wellFormedInv_step calls0)
              _ _ _ Hinit Hrun) as (_ & Hconn & _).
  eapply Forall_impl; [|exact Hconn].
  intros x Hx. unfold wellFormedWrite in Hx.
  destruct (from x); try contradiction.
  - left. destruct Hx as [Hty Hin]. split; [exact Hty|].
    apply in_map_iff in Hin. destruct Hin as (c & Hc & Hin). now exists c.
  - left. destruct Hx as [Hty Hin]. split; [exact Hty|].
    apply in_map_iff in Hin. destruct Hin as (c & Hc & Hin). now exists c.
  - right. exact Hx.
Qed.




End SchedulerShape.

(** ** [encoding/base64]: what [DecodeString] accepts *)

Section Base64Accepts.
Import Base64.

Lemma skipNewlines_nil (src : list ascii) :
  skipNewlines src = [] -> significant src = [].
Proof.
  induction src as [|c src IH]; [reflexivity|].
  cbn [skipNewlines significant filter].
  destruct (isNewline c); [exact IH|discriminate].
Qed.

Lemma skipNewlines_cons (src rest : list ascii) (c : ascii) :
  skipNewlines src = c :: rest ->
  isNewline c = false /\ significant src = c :: significant rest.
Proof.
  induction src as [|a src IH]; [discriminate|].
  cbn [skipNewlines significant filter].
  destruct (isNewline a) eqn:Ha; cbn [negb].
  - exact IH.
  - intros H. injection H as -> ->. split; [exact Ha|reflexivity].
Qed.

Lemma decodeMap_not_newline (c : ascii) (v : N) :
  decodeMap c = Some v -> isNewline c = false.
Proof.
  revert v. destruct c as [[|] [|] [|] [|] [|] [|] [|] [|]]; intros v;
    vm_compute; intros H; solve [reflexivity | discriminate H].
Qed.

Lemma base64Char_newline (c : ascii) : isNewline c = true -> base64Char c = true.
Proof.
  intros H. unfold base64Char. destruct (decodeMap c); [reflexivity|].
  now rewrite H.
Qed.

Lemma base64Char_skipNewlines (src : list ascii) :
  forallb base64Char src = forallb base64Char (skipNewlines src).
Proof.
  induction src as [|c src IH]; [reflexivity|].
  cbn [skipNewlines]. destruct (isNewline c) eqn:Hnl; [|reflexivity].
  cbn [forallb]. now rewrite (base64Char_newline c Hnl).
Qed.

Lemma base64Char_pad (c : ascii) : Ascii.eqb c padChar = true -> base64Char c = true.
Proof.
  intros H. unfold base64Char. destruct (decodeMap c); [reflexivity|].
  rewrite H. apply orb_true_r.
Qed.

Lemma quantumBytes_length (dbuf : list N) :
  (length dbuf <= 4)%nat -> length (quantumBytes dbuf) = (length dbuf - 1)%nat.
Proof.
  intros H. unfold quantumBytes. cbv zeta. rewrite length_firstn.
  cbn [length]. lia.
Qed.

(** What an accepted source looks like, from inside a quantum: every
    character is one [base64Char] admits, the significant characters fill
    whole quanta, and every quantum of four gives at most three bytes, the
    last one at least one. *)
Lemma decodeFrom_accepts (src : list ascii) :
  forall (dbuf : list N) (out : bytes),
    (length dbuf <= 3)%nat ->
    decodeFrom src dbuf = Some out ->
    forallb base64Char src = true
    /\ Nat.modulo (length (significant src) + length dbuf) 4 = 0%nat
    /\ (4 * length out <= 3 * (length (significant src) + length dbuf)
        <= 4 * length out + 8)%nat.
Proof.
  induction src as [|c rest IH]; intros dbuf out Hlen Hdec.
  - cbn [decodeFrom] in Hdec. destruct dbuf; [|discriminate].
    injection Hdec as <-. cbn. repeat split; lia.
  - cbn [decodeFrom] in Hdec. cbn [forallb]. unfold base64Char at 1.
    destruct (decodeMap c) as [v|] eqn:Hmap.
    + pose proof (decodeMap_not_newline c v Hmap) as Hnl.
      cbn [significant filter]. rewrite Hnl. cbn [negb length].
      fold (significant rest).
      destruct (Nat.eqb_spec (length dbuf) 3) as [H3|H3].
      * destruct (decodeFrom rest []) as [out'|] eqn:Hrest; [|discriminate].
        cbn [option_map] in Hdec. injection Hdec as <-.
        destruct (IH [] out' ltac:(cbn; lia) Hrest) as (Hall & Hmod & Hsize).
        cbn [length] in Hmod, Hsize. rewrite Nat.add_0_r in Hmod, Hsize.
        rewrite length_app, quantumBytes_length
          by (rewrite length_app; cbn [length]; lia).
        rewrite length_app. cbn [length]. rewrite H3.
        split; [exact Hall|]. split.
        -- replace (S (length (significant rest)) + 3)%nat
             with (length (significant rest) + 1 * 4)%nat by lia.
           rewrite Nat.Div0.mod_add. exact Hmod.
        -- lia.
      * destruct (IH (dbuf ++ [v]) out
                    ltac:(rewrite length_app; cbn [length]; lia) Hdec)
          as (Hall & Hmod & Hsize).
        rewrite length_app in Hmod, Hsize. cbn [length] in Hmod, Hsize.
        split; [exact Hall|]. split.
        -- replace (S (length (significant rest)) + length dbuf)%nat
             with (length (significant rest) + (length dbuf + 1))%nat by lia.
           exact Hmod.
        -- lia.
    + cbn [significant filter]. fold (significant rest).
      destruct (isNewline c) eqn:Hnl; cbn [negb orb andb].
      * apply IH; assumption.
      * destruct (Ascii.eqb c padChar) eqn:Hpad; [|discriminate].
        cbn [negb] in Hdec. cbn [length].
        destruct dbuf as [|d0 [|d1 [|d2 [|d3 dbuf]]]];
          cbn [length] in Hdec, Hlen |- *; try discriminate; try lia.
        -- destruct (skipNewlines rest) as [|c' rest'] eqn:Hskip;
             [discriminate|].
           destruct (Ascii.eqb c' padChar) eqn:Hpad'; [|discriminate].
           destruct (skipNewlines rest') as [|] eqn:Hskip'; [|discriminate].
           injection Hdec as <-.
           destruct (skipNewlines_cons _ _ _ Hskip) as [Hnl' Hsig].
           rewrite Hsig, (skipNewlines_nil _ Hskip').
           split; [|cbn; repeat split; lia].
           rewrite (base64Char_skipNewlines rest), Hskip. cbn [forallb].
           rewrite (base64Char_pad c' Hpad'), (base64Char_skipNewlines rest'), Hskip'.
           reflexivity.
        -- destruct (skipNewlines rest) as [|] eqn:Hskip; [|discriminate].
           injection Hdec as <-.
           rewrite (skipNewlines_nil _ Hskip).
           split; [|cbn; repeat split; lia].
           rewrite (base64Char_skipNewlines rest), Hskip. reflexivity.
Qed.

(** X7: what [DecodeString] accepts. If it returns [pcm] and no error for
    a string, then every character of the string is a base64 character, a
    padding character or a newline; the characters other than newlines come
    in whole groups of four; and [pcm] has three bytes for each group, less
    at most two for the last one. *)
Theorem DecodeString_accepts (s : string) (pcm : bytes) :
  DecodeString s = Some pcm ->
  forallb base64Char (list_ascii_of_string s) = true
  /\ Nat.modulo (length (significant (list_ascii_of_string s))) 4 = 0%nat
  /\ (4 * length pcm <= 3 * length (significant (list_ascii_of_string s))
      <= 4 * length pcm + 8)%nat.
Proof.
  unfold DecodeString. intros H.
  destruct (decodeFrom_accepts _ [] pcm ltac:(cbn; lia) H) as (Hall & Hmod & Hsize).
  cbn [length] in Hmod, Hsize. rewrite Nat.add_0_r in Hmod, Hsize.
  repeat split; solve [assumption | lia].
Qed.

Lemma Encode_length (src : bytes) :
  length (Encode src) = (4 * ((length src + 2) / 3))%nat.
Proof.
  induction src as [|b0|b0 b1|b0 b1 b2 rest IH] using bytes_ind3;
    try reflexivity.
  cbn [Encode]. rewrite length_app, IH. cbn [encode3 length].
  replace (S (S (S (length rest))) + 2)%nat with (length rest + 2 + 1 * 3)%nat by lia.
  rewrite Nat.div_add by lia. lia.
Qed.

Lemma encodeChar_alphabet (i : N) :
  (i < 64)%N -> exists v, decodeMap (encodeChar i) = Some v.
Proof. intros H. exists i. now apply decodeMap_encodeChar. Qed.

Lemma Encode_chars (src : bytes) :
  Forall (fun c => (exists v, decodeMap c = Some v) \/ c = padChar) (Encode src).
Proof.
  induction src as [|b0|b0 b1|b0 b1 b2 rest IH] using bytes_ind3.
  - constructor.
  - unfold Encode, encode1. cbv zeta.
    repeat (apply Forall_cons;
            [first [left; apply encodeChar_alphabet, land_63_lt
                   |right; reflexivity]|]).
    apply Forall_nil.
  - unfold Encode, encode2. cbv zeta.
    repeat (apply Forall_cons;
            [first [left; apply encodeChar_alphabet, land_63_lt
                   |right; reflexivity]|]).
    apply Forall_nil.
  - cbn [Encode]. apply Forall_app. split; [|exact IH].
    unfold encode3. cbv zeta.
    repeat (apply Forall_cons; [left; apply encodeChar_alphabet, land_63_lt|]).
    apply Forall_nil.
Qed.

(** X8: the size and alphabet of what is sent upstream. The base64 text of
    [n] bytes has exactly [4 * ceil (n / 3)] characters, each one a character
    of the standard alphabet or the padding character (no newline is ever
    inserted). *)
Theorem EncodeToString_shape (src : bytes) :
  String.length (EncodeToString src) = (4 * ((length src + 2) / 3))%nat
  /\ Forall (fun c => (exists v, decodeMap c = Some v) \/ c = padChar)
       (list_ascii_of_string (EncodeToString src)).
Proof.
  unfold EncodeToString. split.
  - rewrite <- Encode_length.
    generalize (Encode src). intros l.
    induction l as [|c l IH]; cbn [string_of_list_ascii String.length length];
      [reflexivity|now rewrite IH].
  - rewrite list_ascii_of_string_of_list_ascii. apply Encode_chars.
Qed.

End Base64Accepts.

(** ** The receiver goroutine over a whole session *)

Section ReceiverSession.
Context {J : Json}.
Local Open Scope string_scope.

Lemma textMessages_app (xs ys : list (Z * bytes)) :
  textMessages (xs ++ ys) = (textMessages xs ++ textMessages ys)%list.
Proof. unfold textMessages. now rewrite filter_app, map_app. Qed.

(** What an iteration on a message does to the session: it goes on, appends
    at most one message for the client, and leaves the context and the
    request alone. *)
Lemma receiverStep_message (s : Session) (msg : bytes) :
  exists s' out new,
    receiverStep s (UpMessage msg) = (Continue, s', out)
    /\ clientConn s' = (clientConn s ++ new)%list
    /\ (length new <= 1)%nat
    /\ textMessages new
       = match errorText msg with Some pretty => [pretty] | None => [] end
    /\ ctxDone s' = ctxDone s
    /\ request s' = request s.
Proof.
  unfold errorText.
  destruct (json_Unmarshal msg) as [evt|] eqn:Hjson.
  - rewrite (receiverStep_decoded s msg evt Hjson). cbv zeta.
    destruct (String.eqb (stringField evt "type") "error").
    + eexists _, _, [_]. repeat split. cbn [length]. lia.
    + destruct (String.eqb (stringField evt "type") "response.output_audio.delta").
      * destruct (Base64.DecodeString (stringField evt "delta")) as [pcm|].
        -- eexists _, _, [_]. repeat split. cbn [length]. lia.
        -- eexists _, _, []. repeat split; [now rewrite app_nil_r|cbn; lia].
      * destruct (String.eqb (stringField evt "type") "response.done");
          eexists _, _, []; (repeat split; [now rewrite app_nil_r|cbn; lia]).
  - unfold receiverStep. rewrite Hjson.
    eexists _, _, []. repeat split; [now rewrite app_nil_r|cbn; lia].
Qed.

(** X9: the receiver stops at the first read error and only then cancels
    the session: reads that come after the error are never looked at, the
    loop ends with [cancel()] called and the read error logged, and up to
    the error the context is left as it was. *)
Theorem receiver_stops_at_read_error
    (s : Session) (pre post : list upstreamRead) :
  ~ In UpError pre ->
  receiverLoop s (pre ++ UpError :: post)%list
  = (cancel (fst (receiverLoop s pre)),
     (snd (receiverLoop s pre) ++ [LogOpenAIReadError])%list)
  /\ ctxDone (fst (receiverLoop s pre)) = ctxDone s.
Proof.
  revert s. induction pre as [|[msg|] pre IH]; intros s Hno.
  - cbn. split; reflexivity.
  - cbn [app receiverLoop].
    destruct (receiverStep_message s msg)
      as (s' & out & new & -> & _ & _ & _ & Hctx & _).
    destruct (IH s' ltac:(intros H; apply Hno; now right)) as [Hloop Hctx'].
    rewrite Hloop. destruct (receiverLoop s' pre) as [s'' out'].
    cbn [fst snd] in *. split; [now rewrite app_assoc|congruence].
  - exfalso. apply Hno. now left.
Qed.

(** X10: the receiver only ever appends to the client socket, at most one
    message per upstream message read: over any reads the messages written
    before stay where they are, and the number of new ones is at most the
    number of reads. *)
Theorem receiver_appends_at_most_one_per_read
    (s : Session) (rs : list upstreamRead) :
  exists new,
    clientConn (fst (receiverLoop s rs)) = (clientConn s ++ new)%list
    /\ (length new <= length rs)%nat
    /\ request (fst (receiverLoop s rs)) = request s.
Proof.
  revert s. induction rs as [|[msg|] rs IH]; intros s.
  - exists []. cbn. repeat split; [now rewrite app_nil_r|lia].
  - cbn [receiverLoop].
    destruct (receiverStep_message s msg)
      as (s' & out & new & -> & Hconn & Hlen & _ & _ & Hreq).
    destruct (IH s') as (new' & Hconn' & Hlen' & Hreq').
    destruct (receiverLoop s' rs) as [s'' out']. cbn [fst] in *.
    exists (new ++ new')%list. rewrite Hconn', Hconn, app_assoc.
    repeat split; [|congruence]. rewrite length_app. cbn [length]. lia.
  - exists []. cbn. repeat split; [now rewrite app_nil_r|lia].
Qed.

(** X11: the diagnostics the client gets are exactly the upstream error
    events: over the life of a session the text messages written to the
    client are the indented JSON of the events of type [error] read from
    upstream, in order of arrival, up to the first read error. *)
Theorem receiver_forwards_every_error (s : Session) (rs : list upstreamRead) :
  textMessages (clientConn (fst (receiverLoop s rs)))
  = (textMessages (clientConn s) ++ errorTexts rs)%list.
Proof.
  revert s. induction rs as [|[msg|] rs IH]; intros s.
  - cbn [receiverLoop errorTexts fst]. now rewrite app_nil_r.
  - cbn [receiverLoop errorTexts].
    destruct (receiverStep_message s msg)
      as (s' & out & new & -> & Hconn & _ & Htext & _ & _).
    specialize (IH s').
    destruct (receiverLoop s' rs) as [s'' out']. cbn [fst] in *.
    rewrite IH, Hconn, textMessages_app, Htext, <- app_assoc.
    destruct (errorText msg); reflexivity.
  - cbn [receiverLoop receiverStep errorTexts fst cancel clientConn].
    now rewrite app_nil_r.
Qed.

(** X12: an audio delta without a usable [delta] field is not an error: when
    the field is missing, is not a string or is the empty string, the
    handler writes an empty binary message to the client. *)
Theorem empty_delta_writes_empty_message
    (s : Session) (msg : bytes) (evt : openAIEvent) :
  json_Unmarshal msg = Some evt ->
  stringField evt "type" = "response.output_audio.delta" ->
  (forall d, lookup "delta" evt = Some (JString d) -> d = "") ->
  receiverStep s (UpMessage msg)
  = (Continue, writeClient s BinaryMessage [], [LogSendingPCM 0]).
Proof.
  intros Hjson Htype Hdelta.
  rewrite (receiverStep_decoded s msg evt Hjson). cbv zeta. rewrite Htype.
  cbn [String.eqb Ascii.eqb Bool.eqb].
  assert (H : stringField evt "delta" = "").
  { unfold stringField. destruct (lookup "delta" evt) as [[| | |d| |]|];
      try reflexivity. now apply Hdelta. }
  rewrite H. reflexivity.
Qed.

Lemma DecodeString_rejects (d : string) :
  (exists c, In c (list_ascii_of_string d) /\ base64Char c = false)
  \/ Nat.modulo (length (significant (list_ascii_of_string d))) 4 <> 0%nat ->
  Base64.DecodeString d = None.
Proof.
  intros Hbad. unfold Base64.DecodeString.
  destruct (Base64.decodeFrom (list_ascii_of_string d) []) as [out|] eqn:Hdec;
    [|reflexivity].
  exfalso.
  destruct (decodeFrom_accepts _ [] out ltac:(cbn; lia) Hdec) as (Hall & Hmod & _).
  destruct Hbad as [(c & Hin & Hc)|Hlen].
  - rewrite forallb_forall in Hall. rewrite (Hall c Hin) in Hc. discriminate.
  - apply Hlen. cbn [length] in Hmod. now rewrite Nat.add_0_r in Hmod.
Qed.

(** X13: which deltas are dropped. An audio delta whose text holds a
    character that is neither of the base64 alphabet, nor the padding
    character, nor a newline, or whose characters other than newlines do not
    come in groups of four (a truncated payload), is logged and dropped:
    nothing is written to the client and the session goes on. *)
Theorem bad_delta_is_dropped
    (s : Session) (msg : bytes) (evt : openAIEvent) :
  json_Unmarshal msg = Some evt ->
  stringField evt "type" = "response.output_audio.delta" ->
  (exists c, In c (list_ascii_of_string (stringField evt "delta"))
             /\ base64Char c = false)
  \/ Nat.modulo
       (length (significant (list_ascii_of_string (stringField evt "delta")))) 4
     <> 0%nat ->
  receiverStep s (UpMessage msg) = (Continue, s, [LogDecodeDeltaError]).
Proof.
  intros Hjson Htype Hbad.
  rewrite (receiverStep_decoded s msg evt Hjson). cbv zeta. rewrite Htype.
  cbn [String.eqb Ascii.eqb Bool.eqb].
  now rewrite (DecodeString_rejects _ Hbad).
Qed.

End ReceiverSession.

(** ** The handler goroutine over a whole session, and through the writer *)

Section HandlerSession.
Context {J : Json}.

(** The calls of one iteration on a message: one [SendAudio] for a binary
    frame, at most one [SendControl] of a command event otherwise. *)
Lemma clientStep_message (ty : Z) (data : bytes) :
  exists out calls,
    clientStep (ClientMessage ty data) = (Continue, out, calls, false)
    /\ audiosOf calls
       = (if (ty =? BinaryMessage)%Z then [JObject (appendEvent data)] else [])
    /\ Forall (fun v => v = JObject clearEvent \/ v = JObject cancelEvent
                        \/ v = JObject forceEvent) (controlsOf calls).
Proof.
  unfold clientStep.
  destruct (ty =? BinaryMessage)%Z.
  - eexists _, _. repeat split. constructor.
  - destruct (ty =? TextMessage)%Z.
    + cbv zeta.
      destruct (String.eqb (string_of_bytes data) "clear");
        [eexists _, _; repeat split; (constructor; [auto|constructor])|].
      destruct (String.eqb (string_of_bytes data) "cancel");
        [eexists _, _; repeat split; (constructor; [auto|constructor])|].
      destruct (String.eqb (string_of_bytes data) "force");
        [eexists _, _; repeat split; (constructor; [auto|constructor])|].
      eexists _, _. repeat split. constructor.
    + eexists _, _. repeat split. constructor.
Qed.

Lemma audiosOf_clientCalls (rs : list clientRead) :
  audiosOf (clientCalls rs)
  = map (fun data => JObject (appendEvent data)) (binaryPayloads rs).
Proof.
  induction rs as [|[ty data|closed] rs IH]; [reflexivity| |reflexivity].
  cbn [clientCalls binaryPayloads].
  destruct (clientStep_message ty data) as (out & calls & -> & Haudio & _).
  rewrite audiosOf_app, Haudio, IH.
  destruct (ty =? BinaryMessage)%Z; reflexivity.
Qed.

(** X14: the handler relays the client's audio losslessly and in order:
    over any client reads, decoding the [audio] fields of the events passed
    to [SendAudio] gives back exactly the payloads of the binary frames the
    client sent, in the order sent, up to the first read error. *)
Theorem handler_relays_frames_in_order (rs : list clientRead) :
  map decodedAudio (audiosOf (handlerCalls rs)) = map Some (binaryPayloads rs).
Proof.
  unfold handlerCalls. cbn [audiosOf]. rewrite audiosOf_clientCalls, map_map.
  apply map_ext. intros data.
  unfold decodedAudio, appendEvent, stringField. cbn [lookup String.eqb Ascii.eqb Bool.eqb].
  apply DecodeString_EncodeToString.
Qed.

(** X15: a client read error ends the handler: whatever the client sends
    after the read that failed, no further call is made on the writer. *)
Theorem handler_stops_at_read_error
    (pre post : list clientRead) (closed : bool) :
  clientCalls (pre ++ ClientError closed :: post) = clientCalls pre.
Proof.
  induction pre as [|[ty data|c] pre IH]; [reflexivity| |reflexivity].
  cbn [app clientCalls].
  destruct (clientStep_message ty data) as (out & calls & -> & _).
  now rewrite IH.
Qed.

Lemma handlerCalls_vocabulary (rs : list clientRead) (c : writerCall) :
  In c (handlerCalls rs) -> upstreamVocabulary rs (callValue c).
Proof.
  unfold handlerCalls. intros [<-|Hin]; [now left|].
  induction rs as [|[ty data|closed] rs IH]; [contradiction| |contradiction].
  cbn [clientCalls] in Hin.
  assert (Hmono : forall v, upstreamVocabulary rs v ->
                    upstreamVocabulary (ClientMessage ty data :: rs) v).
  { intros v [H|[H|[H|[H|(d & Hd & H)]]]]; unfold upstreamVocabulary; auto.
    do 4 right. exists d. split; [now right|exact H]. }
  destruct (clientStep_message ty data) as (out & calls & Hstep & Haudio & Hctl).
  rewrite Hstep in Hin. apply in_app_or in Hin. destruct Hin as [Hin|Hin];
    [|apply Hmono, IH, Hin].
  destruct c as [v|v]; cbn [callValue].
  - assert (Hv : In v (controlsOf calls)).
    { clear -Hin. induction calls as [|[u|u] calls IH]; [contradiction| |].
      - destruct Hin as [H|H]; [injection H as ->; now left|right; now apply IH].
      - destruct Hin as [H|H]; [discriminate|now apply IH]. }
    rewrite Forall_forall in Hctl. specialize (Hctl v Hv).
    unfold upstreamVocabulary. tauto.
  - assert (Hv : In v (audiosOf calls)).
    { clear -Hin. induction calls as [|[u|u] calls IH]; [contradiction| |].
      - destruct Hin as [H|H]; [discriminate|now apply IH].
      - destruct Hin as [H|H]; [injection H as ->; now left|right; now apply IH]. }
    rewrite Haudio in Hv.
    destruct (ty =? BinaryMessage)%Z eqn:Hty; [|contradiction].
    destruct Hv as [<-|[]]. apply Z.eqb_eq in Hty. subst ty.
    do 4 right. exists data. split; [now left|reflexivity].
Qed.

(** X16: the upstream service only ever receives what the session allows:
    in a session of the handler, under every schedule, each text message
    handed to the upstream socket is the marshalled form of
    [session.update], of an [input_audio_buffer.append] event built from a
    binary frame the client sent, or of one of the three command events
    ([input_audio_buffer.clear], [response.cancel], [response.create]); all
    other writes are pings without payload. *)
Theorem upstream_receives_only_session_events
    (rs : list clientRead) (ms : list move) (w : WSWriter) :
  run ms (NewWSWriter (handlerCalls rs)) = Some w ->
  Forall (fun x =>
            (msgType x = TextMessage
             /\ exists v, upstreamVocabulary rs v /\ payload x = json_Marshal v)
            \/ (msgType x = PingMessage /\ payload x = []))
         (conn w).
Proof.
  intros Hrun.
  assert (Hinit : wellFormedInv (handlerCalls rs) (NewWSWriter (handlerCalls rs))).
  { split; [exists []; reflexivity|]. repeat split; constructor. }
  destruct (run_invariant (wellFormedInv (handlerCalls rs))
              (wellFormedInv_step (handlerCalls rs)) _ _ _ Hinit Hrun)
    as (_ & Hconn & _).
  eapply Forall_impl; [|exact Hconn].
  intros x Hx. unfold wellFormedWrite in Hx.
  assert (Htext : msgType x = TextMessage
                  /\ In (payload x)
                        (map (fun c => json_Marshal (callValue c)) (handlerCalls rs)) ->
                  msgType x = TextMessage
                  /\ exists v, upstreamVocabulary rs v /\ payload x = json_Marshal v).
  { intros [Hty Hin]. split; [exact Hty|].
    apply in_map_iff in Hin. destruct Hin as (c & Hc & Hin).
    exists (callValue c). split; [now apply handlerCalls_vocabulary|now symmetry]. }
  destruct (from x); try contradiction; [left|left|right]; auto.
Qed.

Lemma subseq_app_left {A : Type} (xs ys zs : list A) :
  subseq (xs ++ ys) zs -> subseq xs zs.
Proof.
  apply subseq_trans. rewrite <- (app_nil_r xs) at 1.
  apply subseq_app; [apply subseq_refl|constructor].
Qed.

Lemma subseq_app_right {A : Type} (xs ys zs : list A) :
  subseq xs ys -> subseq xs (ys ++ zs).
Proof.
  intros H. rewrite <- (app_nil_r xs). apply subseq_app; [exact H|constructor].
Qed.

(** X17: end to end, audio goes upstream at most once and in order: in a
    session of the handler, under every schedule, the audio messages handed
    to the upstream socket are the append events of some of the binary
    frames the client sent (those not evicted and not still waiting), in
    the order the client sent them. *)
Theorem upstream_audio_follows_client_order
    (rs : list clientRead) (ms : list move) (w : WSWriter) :
  run ms (NewWSWriter (handlerCalls rs)) = Some w ->
  subseq (writesOf CaseAudio (conn w))
         (map (fun data => json_Marshal (JObject (appendEvent data)))
              (binaryPayloads rs)).
Proof.
  intros Hrun.
  destruct (run_invariant (audioOrderInv (handlerCalls rs))
              (audioOrderInv_step (handlerCalls rs)) _ _ _
              (audioOrderInv_init (handlerCalls rs)) Hrun)
    as (done & Hcalls & Hinv).
  assert (Hsub : subseq (writesOf CaseAudio (conn w))
                        (map json_Marshal (audiosOf done))).
  { destruct (caller w).
    - eapply subseq_app_left. exact Hinv.
    - destruct Hinv as (before & -> & Hinv).
      apply subseq_app_right. eapply subseq_app_left. exact Hinv.
    - destruct Hinv as (before & -> & Hinv).
      apply subseq_app_right. eapply subseq_app_left. exact Hinv. }
  eapply subseq_trans; [exact Hsub|].
  assert (Hall : audiosOf (handlerCalls rs)
                 = map (fun data => JObject (appendEvent data)) (binaryPayloads rs)).
  { unfold handlerCalls. cbn [audiosOf]. apply audiosOf_clientCalls. }
  rewrite <- (map_map (fun data => JObject (appendEvent data)) json_Marshal).
  rewrite <- Hall, Hcalls, audiosOf_app, map_app.
  apply subseq_app_right, subseq_refl.
Qed.

End HandlerSession.

(** ** The client socket: the receiver and [pingLoop] together *)

Section ClientSideFacts.
Context {J : Json}.

Lemma noPings_app (xs ys : list (Z * bytes)) :
  noPings (xs ++ ys) = noPings xs ++ noPings ys.
Proof. apply filter_app. Qed.

Lemma pings_app (xs ys : list (Z * bytes)) :
  pings (xs ++ ys) = pings xs ++ pings ys.
Proof. apply filter_app. Qed.

(** An iteration of the receiver looks at the read alone: whatever the
    session, it appends the same messages (none of them a ping), takes the
    same way out, and cancels the context exactly on a read error. *)
Lemma receiverStep_frame (r : upstreamRead) :
  exists f new out,
    (forall s,
        receiverStep s r
        = (f, {| request := request s; clientConn := clientConn s ++ new;
                 ctxDone := ctxDone s
                            || match r with UpError => true | _ => false end |},
           out))
    /\ noPings new = new /\ pings new = []
    /\ (f = match r with UpError => Return | _ => Continue end).
Proof.
  assert (Hsame : forall (s : Session) (f : flow) (out : list logLine),
            (f, s, out)
            = (f, {| request := request s; clientConn := clientConn s ++ [];
                     ctxDone := ctxDone s || false |}, out)).
  { intros [rq cc cd] f out. cbn. now rewrite orb_false_r, app_nil_r. }
  assert (Hwrite : forall (s : Session) (f : flow) (out : list logLine) ty data,
            (f, writeClient s ty data, out)
            = (f, {| request := request s;
                     clientConn := clientConn s ++ [(ty, data)];
                     ctxDone := ctxDone s || false |}, out)).
  { intros [rq cc cd] f out ty data. cbn. now rewrite orb_false_r. }
  destruct r as [msg|].
  - unfold receiverStep.
    destruct (json_Unmarshal msg) as [evt|].
    + cbv zeta. destruct (String.eqb (stringField evt "type") "error").
      * exists Continue, [(TextMessage, json_MarshalIndent evt)],
          [LogOpenAIErrorEvent (json_MarshalIndent evt)].
        split; [intros s; apply Hwrite|repeat split].
      * destruct (String.eqb (stringField evt "type") "response.output_audio.delta").
        -- destruct (Base64.DecodeString (stringField evt "delta")) as [pcm|].
           ++ exists Continue, [(BinaryMessage, pcm)], [LogSendingPCM (length pcm)].
              split; [intros s; apply Hwrite|repeat split].
           ++ exists Continue, [], [LogDecodeDeltaError].
              split; [intros s; apply Hsame|repeat split].
        -- destruct (String.eqb (stringField evt "type") "response.done").
           ++ exists Continue, [], [LogResponseDone].
              split; [intros s; apply Hsame|repeat split].
           ++ exists Continue, [], [LogOpenAIEvent (stringField evt "type")].
              split; [intros s; apply Hsame|repeat split].
    + exists Continue, [], [LogOpenAIJSONError].
      split; [intros s; apply Hsame|repeat split].
  - exists Return, [], [LogOpenAIReadError].
    split; [|repeat split].
    intros [rq cc cd]. cbn. now rewrite orb_true_r, app_nil_r.
Qed.

(** The effect of a move on the messages other than pings, on the pings and
    on the context. *)
Lemma clientSideStep_effect (m : clientMove) (c c' : clientSide) :
  clientSideStep m c = Some c' ->
  ctxDone (session c')
  = ctxDone (session c) || cancels [m]
  /\ match m with
     | Receive r =>
         receiving c = true
         /\ pinging c' = pinging c
         /\ pings (clientConn (session c')) = pings (clientConn (session c))
         /\ receiving c' = match r with UpError => false | _ => true end
         /\ forall s,
             noPings (clientConn s) = noPings (clientConn (session c)) ->
             exists f s' out,
               receiverStep s r = (f, s', out)
               /\ f = match r with UpError => Return | _ => Continue end
               /\ noPings (clientConn s') = noPings (clientConn (session c'))
     | PingTick ok =>
         pinging c = true /\ pinging c' = ok /\ receiving c' = receiving c
         /\ clientConn (session c') = clientConn (session c) ++ [(PingMessage, [])]
     | PingDone =>
         pinging c = true /\ pinging c' = false /\ receiving c' = receiving c
         /\ ctxDone (session c) = true
         /\ clientConn (session c') = clientConn (session c)
     | HandlerCancel =>
         pinging c' = pinging c /\ receiving c' = receiving c
         /\ clientConn (session c') = clientConn (session c)
     end.
Proof.
  destruct m as [r|ok| |]; cbn [clientSideStep cancels]; intros Hstep.
  - destruct (receiving c) eqn:Hrec; [|discriminate].
    destruct (receiverStep_frame r) as (f & new & out & Hall & Hnp & Hp & Hf).
    rewrite (Hall (session c)) in Hstep.
    assert (Hc' : session c'
                  = {| request := request (session c);
                       clientConn := clientConn (session c) ++ new;
                       ctxDone := ctxDone (session c)
                                  || match r with
                                     | UpError => true
                                     | _ => false
                                     end |}
                  /\ pinging c' = pinging c
                  /\ receiving c' = match r with UpError => false | _ => true end).
    { subst f. destruct r; injection Hstep as <-; repeat split. }
    destruct Hc' as (Hs & Hpg & Hrc). rewrite Hs. cbn [ctxDone clientConn].
    split; [destruct r; reflexivity|].
    split; [reflexivity|]. split; [exact Hpg|].
    split; [rewrite pings_app, Hp; apply app_nil_r|].
    split; [exact Hrc|].
    intros s Hs0. eexists _, _, _. split; [apply Hall|]. split; [exact Hf|].
    cbn [clientConn]. now rewrite !noPings_app, Hs0.
  - unfold pingLoop in Hstep.
    destruct (pinging c) eqn:Hpg; [|discriminate]. cbn [negb] in Hstep.
    injection Hstep as <-. cbn. rewrite orb_false_r. repeat split.
  - unfold pingLoop in Hstep.
    destruct (pinging c) eqn:Hpg; [|discriminate]. cbn [negb] in Hstep.
    destruct (ctxDone (session c)) eqn:Hctx; [|discriminate].
    injection Hstep as <-. cbn. rewrite Hctx. repeat split.
  - injection Hstep as <-. cbn. rewrite orb_true_r. repeat split.
Qed.

Lemma clientSideRun_stopped (ms : list clientMove) (c c' : clientSide) :
  receiving c = false ->
  clientSideRun ms c = Some c' ->
  received ms = []
  /\ noPings (clientConn (session c')) = noPings (clientConn (session c)).
Proof.
  revert c. induction ms as [|m ms IH]; intros c Hrec Hrun.
  - injection Hrun as <-. split; reflexivity.
  - cbn [clientSideRun] in Hrun.
    destruct (clientSideStep m c) as [c1|] eqn:H1; [|discriminate].
    pose proof (clientSideStep_effect m c c1 H1) as [_ Heff].
    destruct m as [r|ok| |]; cbn [received].
    + destruct Heff as (Hr & _). congruence.
    + destruct Heff as (_ & _ & Hrc & Hconn).
      destruct (IH c1 ltac:(congruence) Hrun) as [H0 Hnp].
      split; [exact H0|]. rewrite Hnp, Hconn, noPings_app. apply app_nil_r.
    + destruct Heff as (_ & _ & Hrc & _ & Hconn).
      destruct (IH c1 ltac:(congruence) Hrun) as [H0 Hnp].
      split; [exact H0|]. now rewrite Hnp, Hconn.
    + destruct Heff as (_ & Hrc & Hconn).
      destruct (IH c1 ltac:(congruence) Hrun) as [H0 Hnp].
      split; [exact H0|]. now rewrite Hnp, Hconn.
Qed.

Lemma clientSideRun_relay (ms : list clientMove) :
  forall (c c' : clientSide) (s : Session),
    receiving c = true ->
    noPings (clientConn s) = noPings (clientConn (session c)) ->
    clientSideRun ms c = Some c' ->
    noPings (clientConn (session c'))
    = noPings (clientConn (fst (receiverLoop s (received ms)))).
Proof.
  induction ms as [|m ms IH]; intros c c' s Hrec Hs Hrun.
  - injection Hrun as <-. cbn. now symmetry.
  - cbn [clientSideRun] in Hrun.
    destruct (clientSideStep m c) as [c1|] eqn:H1; [|discriminate].
    pose proof (clientSideStep_effect m c c1 H1) as [_ Heff].
    destruct m as [r|ok| |]; cbn [received].
    + destruct Heff as (_ & _ & _ & Hrc & Hsim).
      destruct (Hsim s Hs) as (f & s' & out & Hstep & Hf & Hnp).
      cbn [receiverLoop]. rewrite Hstep. subst f.
      destruct r as [msg|].
      * specialize (IH c1 c' s' Hrc Hnp Hrun).
        destruct (receiverLoop s' (received ms)). exact IH.
      * destruct (clientSideRun_stopped ms c1 c' Hrc Hrun) as [_ Hstop].
        cbn [fst]. now rewrite Hstop.
    + destruct Heff as (_ & _ & Hrc & Hconn).
      apply (IH c1 c' s); [congruence| |exact Hrun].
      rewrite Hconn, noPings_app. cbn. now rewrite app_nil_r.
    + destruct Heff as (_ & _ & Hrc & _ & Hconn).
      apply (IH c1 c' s); [congruence| |exact Hrun]. now rewrite Hconn.
    + destruct Heff as (_ & Hrc & Hconn).
      apply (IH c1 c' s); [congruence| |exact Hrun]. now rewrite Hconn.
Qed.

(** X18: heartbeats do not disturb the relay: however the pings of
    [pingLoop] and the handler's [cancel()] interleave with the receiver,
    the messages written to the client other than pings are exactly those
    the receiver alone writes for the same upstream reads, in the same
    order. *)
Theorem pings_do_not_disturb_relay
    (s : Session) (ms : list clientMove) (c : clientSide) :
  clientSideRun ms (clientStart s) = Some c ->
  noPings (clientConn (session c))
  = noPings (clientConn (fst (receiverLoop s (received ms)))).
Proof.
  intros Hrun. apply (clientSideRun_relay ms (clientStart s) c s);
    [reflexivity|reflexivity|exact Hrun].
Qed.

Lemma cancels_cons (m : clientMove) (ms : list clientMove) :
  cancels (m :: ms) = cancels [m] || cancels ms.
Proof. destruct m as [[msg|]|ok| |]; reflexivity. Qed.

(** X19: the context of a session is cancelled by an upstream read error or
    by the handler's [cancel()], and by nothing else: in every schedule of
    the client side the context is cancelled at the end exactly when it was
    at the start or one of the two happened. A ping that fails makes
    [pingLoop] return without cancelling the session. *)
Theorem only_read_errors_cancel
    (ms : list clientMove) (c c' : clientSide) :
  clientSideRun ms c = Some c' ->
  ctxDone (session c') = ctxDone (session c) || cancels ms.
Proof.
  revert c. induction ms as [|m ms IH]; intros c Hrun.
  - injection Hrun as <-. cbn. now rewrite orb_false_r.
  - cbn [clientSideRun] in Hrun.
    destruct (clientSideStep m c) as [c1|] eqn:H1; [|discriminate].
    pose proof (clientSideStep_effect m c c1 H1) as [Hctx _].
    rewrite (IH c1 Hrun), Hctx, (cancels_cons m ms). symmetry. apply orb_assoc.
Qed.

Lemma pings_stopped_step (m : clientMove) (c c' : clientSide) :
  pinging c = false -> clientSideStep m c = Some c' ->
  pinging c' = false
  /\ pings (clientConn (session c')) = pings (clientConn (session c)).
Proof.
  intros Hpg Hstep.
  pose proof (clientSideStep_effect m c c' Hstep) as [_ Heff].
  destruct m as [r|ok| |].
  - destruct Heff as (_ & Hp & Hpings & _). split; congruence.
  - destruct Heff as (Hp & _). congruence.
  - destruct Heff as (Hp & _). congruence.
  - destruct Heff as (Hp & _ & Hconn). split; congruence.
Qed.

(** X20: [pingLoop] gives up at the first ping that fails: after the move
    in which the ping write returns an error, no ping is written to the
    client any more, under every later schedule, while the receiver may go
    on relaying. *)
Theorem failed_ping_ends_heartbeat
    (c c1 : clientSide) (ms : list clientMove) (c' : clientSide) :
  clientSideStep (PingTick false) c = Some c1 ->
  clientSideRun ms c1 = Some c' ->
  pinging c' = false
  /\ pings (clientConn (session c'))
     = pings (clientConn (session c)) ++ [(PingMessage, [])].
Proof.
  intros Hstep Hrun.
  pose proof (clientSideStep_effect _ c c1 Hstep) as [_ (_ & Hpg & _ & Hconn)].
  assert (H : pinging c' = false
              /\ pings (clientConn (session c')) = pings (clientConn (session c1))).
  { clear Hstep Hconn. revert c1 Hpg Hrun.
    induction ms as [|m ms IH]; intros c1 Hpg Hrun.
    - injection Hrun as <-. split; [exact Hpg|reflexivity].
    - cbn [clientSideRun] in Hrun.
      destruct (clientSideStep m c1) as [c2|] eqn:H2; [|discriminate].
      destruct (pings_stopped_step m c1 c2 Hpg H2) as [Hpg2 Hp2].
      destruct (IH c2 Hpg2 Hrun) as [Hpg' Hp']. split; congruence. }
  destruct H as [Hpg' Hp']. split; [exact Hpg'|].
  now rewrite Hp', Hconn, pings_app.
Qed.

End ClientSideFacts.

(** ** [SendAudio]: the receive of line 303 can wait for ever *)

Section SchedulerStuck.
Context {J : Json}.

Lemma stuck_step (b : bytes) (m : move) (w w' : WSWriter) :
  caller w = AtEvict b /\ audioCh w = [] ->
  step m w = Some w' ->
  (caller w' = AtEvict b /\ audioCh w' = [])
  /\ pending w' = pending w
  /\ writesOf CaseAudio (conn w') = writesOf CaseAudio (conn w)
  /\ writesOf CaseControl (conn w') = writesOf CaseControl (conn w).
Proof.
  intros [Hat0 Hq0] Hstep.
  step_inv Hstep; try congruence; try (repeat split; assumption).
  repeat split; try assumption;
    rewrite writesOf_snoc; cbn; apply app_nil_r.
Qed.

Lemma run_app (xs ys : list move) (w : WSWriter) :
  run (xs ++ ys) w
  = match run xs w with Some w' => run ys w' | None => None end.
Proof.
  revert w. induction xs as [|m xs IH]; intros w; cbn [app run]; [reflexivity|].
  destruct (step m w) as [w1|]; [apply IH|reflexivity].
Qed.

(** A caller at line 303 on an empty buffer is still there after any
    schedule. *)
Lemma stuck_run (b : bytes) (ms : list move) (w w' : WSWriter) :
  caller w = AtEvict b -> audioCh w = [] ->
  run ms w = Some w' ->
  caller w' = AtEvict b /\ audioCh w' = [].
Proof.
  intros Hat Hq Hrun.
  apply (run_invariant (fun x => caller x = AtEvict b /\ audioCh x = []))
    with (ms := ms) (w := w); [|split; assumption|exact Hrun].
  intros m x x' Hstuck Hstep.
  exact (proj1 (stuck_step b m x x' Hstuck Hstep)).
Qed.

(** No schedule lets such a caller make its next move. *)
Lemma stuck_caller_never_moves (b : bytes) (w : WSWriter) (ms : list move) :
  caller w = AtEvict b -> audioCh w = [] ->
  run (ms ++ [Caller]) w = None.
Proof.
  intros Hat Hq. rewrite run_app.
  destruct (run ms w) as [w'|] eqn:Hrun; [|reflexivity].
  destruct (stuck_run b ms w w' Hat Hq Hrun) as [Hat' Hq'].
  cbn [run step]. unfold callerStep. rewrite Hat', Hq'. reflexivity.
Qed.

(** X21: [SendAudio] can block for ever. If the loop has emptied the buffer
    by the time the caller, having found it full, comes to the receive of
    line 303, the caller waits on an empty channel that only itself sends
    on: under every later schedule it stays there, the buffer stays empty,
    none of its remaining calls is made, and no audio or control message is
    written any more. *)
Theorem evicting_caller_waits_for_ever
    (b : bytes) (w : WSWriter) (ms : list move) (w' : WSWriter) :
  caller w = AtEvict b -> audioCh w = [] ->
  run ms w = Some w' ->
  caller w' = AtEvict b /\ audioCh w' = []
  /\ pending w' = pending w
  /\ writesOf CaseAudio (conn w') = writesOf CaseAudio (conn w)
  /\ writesOf CaseControl (conn w') = writesOf CaseControl (conn w).
Proof.
  intros Hat Hq Hrun.
  assert (H : (caller w' = AtEvict b /\ audioCh w' = [])
              /\ pending w' = pending w
              /\ writesOf CaseAudio (conn w') = writesOf CaseAudio (conn w)
              /\ writesOf CaseControl (conn w') = writesOf CaseControl (conn w)).
  { apply (run_invariant
             (fun x => (caller x = AtEvict b /\ audioCh x = [])
                       /\ pending x = pending w
                       /\ writesOf CaseAudio (conn x) = writesOf CaseAudio (conn w)
                       /\ writesOf CaseControl (conn x)
                          = writesOf CaseControl (conn w))
             ) with (ms := ms) (w := w); [|repeat split; assumption|exact Hrun].
    intros m x x' (Hstuck & Hp & Ha & Hc) Hstep.
    destruct (stuck_step b m x x' Hstuck Hstep) as (Hstuck' & Hp' & Ha' & Hc').
    repeat split; try apply Hstuck'; congruence. }
  tauto.
Qed.

(** C4, as the program behaves: the client sends five binary frames in a
    row. After [session.update] the handler queues four of them; the fifth
    [SendAudio] finds [audioCh] at capacity and takes the [default] branch.
    The failed send of line 299 and the receive of line 303 are two steps,
    and the loop receives from the same channel (line 274). If the loop
    writes one message in between, the caller throws away the second frame
    although the buffer has room, and the buffer ends below capacity. If
    the loop writes all four, nothing is evicted, the fifth frame is never
    inserted and [SendAudio] never returns: under every schedule the
    caller's next move is impossible. *)
Theorem send_audio_eviction_races_with_loop (f1 f2 f3 f4 f5 : bytes) :
  let ev := fun data => json_Marshal (JObject (appendEvent data)) in
  let frames := map (ClientMessage BinaryMessage) [f1; f2; f3; f4; f5] in
  exists w,
    run [Loop CaseControl true; Caller; Caller; Caller; Caller; Caller]
        (NewWSWriter (handlerCalls frames))
    = Some w
    /\ audioCh w = [ev f1; ev f2; ev f3; ev f4]
    /\ length (audioCh w) = audioCap
    /\ caller w = AtEvict (ev f5) /\ pending w = [] /\ running w = true
    /\ (exists w1,
          run [Loop CaseAudio true; Caller; Caller] w = Some w1
          /\ caller w1 = Ready
          /\ writesOf CaseAudio (conn w1) = [ev f1]
          /\ audioCh w1 = [ev f3; ev f4; ev f5]
          /\ (length (audioCh w1) < audioCap)%nat)
    /\ (exists w2,
          run [Loop CaseAudio true; Loop CaseAudio true;
               Loop CaseAudio true; Loop CaseAudio true] w
          = Some w2
          /\ writesOf CaseAudio (conn w2) = [ev f1; ev f2; ev f3; ev f4]
          /\ audioCh w2 = [] /\ caller w2 = AtEvict (ev f5)
          /\ running w2 = true
          /\ step Caller w2 = None
          /\ forall ms, run (ms ++ [Caller]) w2 = None).
Proof.
  cbv zeta.
  replace (handlerCalls (map (ClientMessage BinaryMessage) [f1; f2; f3; f4; f5]))
    with (SendControl sessionUpdate
          :: map (fun data => SendAudio (JObject (appendEvent data)))
               [f1; f2; f3; f4; f5]) by reflexivity.
  cbn [map].
  generalize (JObject (appendEvent f1)), (JObject (appendEvent f2)),
    (JObject (appendEvent f3)), (JObject (appendEvent f4)),
    (JObject (appendEvent f5)), sessionUpdate.
  intros v1 v2 v3 v4 v5 update.
  eexists. split; [cbv -[json_Marshal]; reflexivity|].
  cbn [audioCh caller pending running].
  do 5 (split; [reflexivity|]).
  split.
  - eexists. split; [cbv -[json_Marshal]; reflexivity|].
    cbn [audioCh caller conn].
    do 3 (split; [reflexivity|]).
    unfold audioCap. cbn [length]. lia.
  - eexists. split; [cbv -[json_Marshal]; reflexivity|].
    cbn [audioCh caller conn running].
    do 4 (split; [reflexivity|]).
    split; [reflexivity|].
    intros ms. apply (stuck_caller_never_moves (json_Marshal v5)); reflexivity.
Qed.

End SchedulerStuck.

(** ** The single-lane writer of the earlier version *)

Section SingleLaneFacts.
Context {J : Json}.
Import SingleLane.

Lemma textWrites_snoc (ws : list (Z * bytes * bool)) (x : Z * bytes * bool) :
  textWrites (ws ++ [x]) = textWrites ws ++ textWrites [x].
Proof. unfold textWrites. now rewrite filter_app, map_app. Qed.

Lemma singleLane_step (calls0 : list jvalue) (m : SingleLane.move)
    (w w' : SingleLane.WSWriter) :
  fifoInv calls0 w -> SingleLane.step m w = Some w' -> fifoInv calls0 w'.
Proof.
  unfold fifoInv, chCap. intros [(done & Hcalls & Hall) Hcap] Hstep.
  destruct m as [| | |c ok]; cbn [SingleLane.step] in Hstep.
  - unfold SendJSON, chCap in Hstep.
    destruct (SingleLane.pending w) as [|v rest] eqn:Hp; [discriminate|].
    destruct (Nat.ltb_spec (length (ch w)) 512); [|discriminate].
    injection Hstep as <-. cbn [SingleLane.pending ch SingleLane.conn]. split.
    + exists (done ++ [v]). rewrite Hcalls, <- app_assoc. split; [reflexivity|].
      now rewrite map_app, app_assoc, Hall.
    + rewrite length_app. cbn [length]. lia.
  - injection Hstep as <-. split; [exists done; split|]; assumption.
  - injection Hstep as <-. split; [exists done; split|]; assumption.
  - unfold SingleLane.loop in Hstep.
    destruct (SingleLane.running w); [|discriminate]. cbn [negb] in Hstep.
    destruct c.
    + destruct (SingleLane.ctxCancelled w); [|discriminate].
      injection Hstep as <-. split; [exists done; split|]; assumption.
    + destruct (ch w) as [|b q] eqn:Hq; [discriminate|].
      injection Hstep as <-. cbn [SingleLane.pending ch SingleLane.conn]. split.
      * exists done. split; [exact Hcalls|].
        rewrite textWrites_snoc. cbn. rewrite <- app_assoc. exact Hall.
      * cbn [length] in Hcap. lia.
    + destruct (SingleLane.tickerC w); [|discriminate].
      injection Hstep as <-. cbn [SingleLane.pending ch SingleLane.conn]. split.
      * exists done. split; [exact Hcalls|].
        rewrite textWrites_snoc. cbn. rewrite app_nil_r. exact Hall.
      * exact Hcap.
Qed.

(** X22: the earlier writer drops and reorders nothing: under every
    schedule, the text messages handed to the socket, then those queued in
    [ch], then those of the calls still to make, are the marshalled values
    of all the calls in the order of the calls, audio and control alike; and
    the queue never holds more than 512 messages. *)
Theorem single_lane_is_fifo
    (calls0 : list jvalue) (ms : list SingleLane.move) (w : SingleLane.WSWriter) :
  SingleLane.run ms (SingleLane.NewWSWriter calls0) = Some w ->
  textWrites (SingleLane.conn w) ++ ch w ++ map json_Marshal (SingleLane.pending w)
  = map json_Marshal calls0
  /\ (length (ch w) <= chCap)%nat.
Proof.
  intros Hrun.
  assert (Hinv : fifoInv calls0 w).
  { revert Hrun.
    assert (Hinit : fifoInv calls0 (SingleLane.NewWSWriter calls0)).
    { split; [exists []; split; reflexivity|]. cbn. unfold chCap. lia. }
    generalize (SingleLane.NewWSWriter calls0) Hinit. clear Hinit.
    induction ms as [|m ms IH]; intros w0 Hinit Hrun.
    - injection Hrun as <-. exact Hinit.
    - cbn [SingleLane.run] in Hrun.
      destruct (SingleLane.step m w0) as [w1|] eqn:H1; [|discriminate].
      apply (IH w1); [|exact Hrun]. eapply singleLane_step; eassumption. }
  destruct Hinv as [(done & Hcalls & Hall) Hcap].
  split; [|exact Hcap].
  now rewrite app_assoc, Hall, Hcalls, map_app.
Qed.

End SingleLaneFacts.

(** ** The further properties at concrete sessions *)

Lemma sample_run :
  run (J:=Sample.json) Sample.schedule (NewWSWriter Sample.calls)
  = Some Sample.final.
Proof. vm_compute. reflexivity. Qed.

Lemma audio_lane_keeps_order_witness :
  run (J:=Sample.json) Sample.schedule (NewWSWriter Sample.calls)
  = Some Sample.final
  /\ exists done,
      Sample.calls = done ++ pending Sample.final
      /\ subseq (writesOf CaseAudio (conn Sample.final) ++ audioCh Sample.final)
                (map Sample.marshal (audiosOf done)).
Proof.
  split; [exact sample_run|].
  exact (audio_lane_keeps_order (J:=Sample.json) _ _ _ sample_run).
Defined.

Lemma audio_lane_lossless_with_room_witness :
  (length (audiosOf Sample.calls) <= audioCap)%nat
  /\ caller Sample.final = Ready
  /\ exists done,
      Sample.calls = done ++ pending Sample.final
      /\ writesOf CaseAudio (conn Sample.final) ++ audioCh Sample.final
         = map Sample.marshal (audiosOf done).
Proof.
  assert (Hroom : (length (audiosOf Sample.calls) <= audioCap)%nat)
    by (vm_compute; lia).
  split; [exact Hroom|].
  exact (audio_lane_lossless_with_room (J:=Sample.json) _ _ _ Hroom sample_run).
Defined.

Lemma stopped_loop_writes_nothing_witness :
  running Fixture.failedFirstWrite = false
  /\ exists w',
      run (J:=Sample.json) [Tick; Caller; Cancel] Fixture.failedFirstWrite = Some w'
      /\ running w' = false
      /\ conn w' = conn Fixture.failedFirstWrite
      /\ controlsOf (pending w') = controlsOf (pending Fixture.failedFirstWrite).
Proof.
  split; [reflexivity|]. eexists. split; [reflexivity|].
  apply (stopped_loop_writes_nothing (J:=Sample.json) Fixture.failedFirstWrite
           [Tick; Caller; Cancel]); reflexivity.
Defined.

Lemma pings_follow_ticks_witness :
  exists w,
    run (J:=Sample.json) Fixture.tickSchedule (NewWSWriter Sample.calls) = Some w
    /\ (length (writesOf CaseTicker (conn w)) <= ticks Fixture.tickSchedule)%nat.
Proof.
  eexists. split; [reflexivity|].
  apply (pings_follow_ticks (J:=Sample.json) Sample.calls). reflexivity.
Defined.

Lemma writes_are_text_or_ping_witness :
  run (J:=Sample.json) Sample.schedule (NewWSWriter Sample.calls)
  = Some Sample.final
  /\ Forall (fun x =>
               (msgType x = TextMessage
                /\ exists c, In c Sample.calls
                             /\ payload x = Sample.marshal (callValue c))
               \/ (msgType x = PingMessage /\ payload x = []))
            (conn Sample.final).
Proof.
  split; [exact sample_run|].
  exact (writes_are_text_or_ping (J:=Sample.json) _ _ _ sample_run).
Defined.


Lemma DecodeString_accepts_witness :
  Base64.DecodeString "aGVsbG8=" = Some (bytes_of_string "hello")
  /\ forallb base64Char (list_ascii_of_string "aGVsbG8=") = true
  /\ Nat.modulo (length (significant (list_ascii_of_string "aGVsbG8="))) 4 = 0%nat
  /\ (4 * length (bytes_of_string "hello")
      <= 3 * length (significant (list_ascii_of_string "aGVsbG8="))
      <= 4 * length (bytes_of_string "hello") + 8)%nat.
Proof.
  split; [reflexivity|].
  exact (DecodeString_accepts "aGVsbG8=" (bytes_of_string "hello") eq_refl).
Defined.

Lemma receiver_stops_at_read_error_witness :
  ~ In UpError [UpMessage (Sample.deltaMsg "AAAA")]
  /\ receiverLoop (J:=Sample.json) (newSession Sample.framedRequest)
       ([UpMessage (Sample.deltaMsg "AAAA")]
        ++ UpError :: [UpMessage (Sample.deltaMsg "AAAA")])
     = (cancel (fst (receiverLoop (J:=Sample.json)
                       (newSession Sample.framedRequest)
                       [UpMessage (Sample.deltaMsg "AAAA")])),
        snd (receiverLoop (J:=Sample.json) (newSession Sample.framedRequest)
               [UpMessage (Sample.deltaMsg "AAAA")])
        ++ [LogOpenAIReadError])
  /\ ctxDone (fst (receiverLoop (J:=Sample.json)
                     (newSession Sample.framedRequest)
                     [UpMessage (Sample.deltaMsg "AAAA")]))
     = false.
Proof.
  assert (Hno : ~ In UpError [UpMessage (Sample.deltaMsg "AAAA")])
    by (intros [H|[]]; discriminate H).
  split; [exact Hno|].
  exact (receiver_stops_at_read_error (J:=Sample.json)
           (newSession Sample.framedRequest) _
           [UpMessage (Sample.deltaMsg "AAAA")] Hno).
Defined.

Lemma empty_delta_writes_empty_message_witness :
  receiverStep (J:=Fixture.json) (newSession Sample.framedRequest)
    (UpMessage (Fixture.message Fixture.noDeltaEvent))
  = (Continue, writeClient (newSession Sample.framedRequest) BinaryMessage [],
     [LogSendingPCM 0]).
Proof.
  apply (empty_delta_writes_empty_message (J:=Fixture.json)
           (newSession Sample.framedRequest)
           (Fixture.message Fixture.noDeltaEvent) Fixture.noDeltaEvent);
    [reflexivity|reflexivity|].
  intros d H. discriminate H.
Defined.

Lemma bad_delta_is_dropped_witness :
  In "*"%char (list_ascii_of_string "AAA*") /\ base64Char "*" = false
  /\ receiverStep (J:=Sample.json) (newSession Sample.framedRequest)
       (UpMessage (Sample.deltaMsg "AAA*"))
     = (Continue, newSession Sample.framedRequest, [LogDecodeDeltaError]).
Proof.
  assert (Hin : In "*"%char (list_ascii_of_string "AAA*"))
    by (cbn; tauto).
  split; [exact Hin|]. split; [reflexivity|].
  apply (bad_delta_is_dropped (J:=Sample.json) (newSession Sample.framedRequest)
           (Sample.deltaMsg "AAA*") (Sample.deltaEvent "AAA*"));
    [reflexivity|reflexivity|].
  left. exists "*"%char. split; [exact Hin|reflexivity].
Defined.

Lemma upstream_receives_only_session_events_witness :
  run (J:=Sample.json) Sample.schedule
    (NewWSWriter
       (handlerCalls [Sample.frame "a"; Sample.text "cancel";
                      Sample.frame "b"; Sample.text "clear"]))
  = Some Sample.final
  /\ Forall (fun x =>
               (msgType x = TextMessage
                /\ exists v,
                    upstreamVocabulary
                      [Sample.frame "a"; Sample.text "cancel";
                       Sample.frame "b"; Sample.text "clear"] v
                    /\ payload x = Sample.marshal v)
               \/ (msgType x = PingMessage /\ payload x = []))
            (conn Sample.final).
Proof.
  split; [exact sample_run|].
  exact (upstream_receives_only_session_events (J:=Sample.json) _ _ _ sample_run).
Defined.

Lemma upstream_audio_follows_client_order_witness :
  run (J:=Sample.json) Sample.schedule
    (NewWSWriter
       (handlerCalls [Sample.frame "a"; Sample.text "cancel";
                      Sample.frame "b"; Sample.text "clear"]))
  = Some Sample.final
  /\ subseq (writesOf CaseAudio (conn Sample.final))
            (map (fun data => Sample.marshal (JObject (appendEvent data)))
                 (binaryPayloads [Sample.frame "a"; Sample.text "cancel";
                                  Sample.frame "b"; Sample.text "clear"])).
Proof.
  split; [exact sample_run|].
  exact (upstream_audio_follows_client_order (J:=Sample.json) _ _ _ sample_run).
Defined.

Lemma client_run :
  clientSideRun (J:=Fixture.json) Fixture.clientSchedule
    (clientStart (newSession Sample.framedRequest))
  = Some Fixture.clientEnd.
Proof. vm_compute. reflexivity. Qed.

Lemma pings_do_not_disturb_relay_witness :
  clientSideRun (J:=Fixture.json) Fixture.clientSchedule
    (clientStart (newSession Sample.framedRequest))
  = Some Fixture.clientEnd
  /\ noPings (clientConn (session Fixture.clientEnd))
     = noPings (clientConn
                  (fst (receiverLoop (J:=Fixture.json)
                          (newSession Sample.framedRequest)
                          (received Fixture.clientSchedule)))).
Proof.
  split; [exact client_run|].
  exact (pings_do_not_disturb_relay (J:=Fixture.json) _ _ _ client_run).
Defined.

Lemma only_read_errors_cancel_witness :
  clientSideRun (J:=Fixture.json) Fixture.clientSchedule
    (clientStart (newSession Sample.framedRequest))
  = Some Fixture.clientEnd
  /\ ctxDone (session Fixture.clientEnd)
     = ctxDone (session (clientStart (newSession Sample.framedRequest)))
       || cancels Fixture.clientSchedule.
Proof.
  split; [exact client_run|].
  exact (only_read_errors_cancel (J:=Fixture.json) _ _ _ client_run).
Defined.

Lemma failed_ping_ends_heartbeat_witness :
  clientSideStep (J:=Fixture.json) (PingTick false)
    (clientStart (newSession Sample.framedRequest)) = Some Fixture.pingFailed
  /\ clientSideRun (J:=Fixture.json)
       [Receive (UpMessage (Fixture.message (Sample.deltaEvent "AAAA")))]
       Fixture.pingFailed
     = Some Fixture.relayedAfterPingFailed
  /\ pinging Fixture.relayedAfterPingFailed = false
  /\ pings (clientConn (session Fixture.relayedAfterPingFailed))
     = pings (clientConn (session (clientStart (newSession Sample.framedRequest))))
       ++ [(PingMessage, [])].
Proof.
  assert (H1 : clientSideStep (J:=Fixture.json) (PingTick false)
                 (clientStart (newSession Sample.framedRequest))
               = Some Fixture.pingFailed) by (vm_compute; reflexivity).
  assert (H2 : clientSideRun (J:=Fixture.json)
                 [Receive (UpMessage (Fixture.message (Sample.deltaEvent "AAAA")))]
                 Fixture.pingFailed
               = Some Fixture.relayedAfterPingFailed) by (vm_compute; reflexivity).
  split; [exact H1|]. split; [exact H2|].
  exact (failed_ping_ends_heartbeat (J:=Fixture.json) _ _ _ _ H1 H2).
Defined.

Lemma evicting_caller_waits_for_ever_witness :
  run (J:=Sample.json) Fixture.drainSchedule (NewWSWriter Fixture.fiveFrames)
  = Some Fixture.drained
  /\ caller Fixture.drained = AtEvict (Sample.marshal (JString "e"))
  /\ audioCh Fixture.drained = []
  /\ exists w',
      run (J:=Sample.json) [Tick; Loop CaseTicker true; Cancel] Fixture.drained
      = Some w'
      /\ caller w' = AtEvict (Sample.marshal (JString "e"))
      /\ audioCh w' = []
      /\ pending w' = pending Fixture.drained
      /\ writesOf CaseAudio (conn w') = writesOf CaseAudio (conn Fixture.drained)
      /\ writesOf CaseControl (conn w')
         = writesOf CaseControl (conn Fixture.drained).
Proof.
  split; [vm_compute; reflexivity|].
  split; [reflexivity|]. split; [reflexivity|].
  eexists. split; [reflexivity|].
  apply (evicting_caller_waits_for_ever (J:=Sample.json)
           (Sample.marshal (JString "e")) Fixture.drained
           [Tick; Loop CaseTicker true; Cancel]); reflexivity.
Defined.

Lemma single_lane_is_fifo_witness :
  SingleLane.run (J:=Sample.json) Fixture.singleLaneSchedule
    (SingleLane.NewWSWriter
       (SingleLane.handlerEvents [Sample.frame "a"; Sample.text "cancel"]))
  = Some Fixture.singleLaneEnd
  /\ SingleLane.textWrites (SingleLane.conn Fixture.singleLaneEnd)
     ++ SingleLane.ch Fixture.singleLaneEnd
     ++ map Sample.marshal (SingleLane.pending Fixture.singleLaneEnd)
     = map Sample.marshal
         (SingleLane.handlerEvents [Sample.frame "a"; Sample.text "cancel"])
  /\ (length (SingleLane.ch Fixture.singleLaneEnd) <= SingleLane.chCap)%nat.
Proof.
  assert (Hrun : SingleLane.run (J:=Sample.json) Fixture.singleLaneSchedule
                   (SingleLane.NewWSWriter
                      (SingleLane.handlerEvents
                         [Sample.frame "a"; Sample.text "cancel"]))
                 = Some Fixture.singleLaneEnd) by (vm_compute; reflexivity).
  split; [exact Hrun|].
  exact (single_lane_is_fifo (J:=Sample.json) _ _ _ Hrun).
Defined.
